(** * TimeStepPF: the implicit solve of the Projective Fluids time step

    A shallow embedding of [SPlisHSPlasH/PF/TimeStepPF.cpp].

    Conventions of the embedding.
    - [Real] is the field of exact rationals [Qc]: every operation of the
      source is kept, rounding is not modelled, decimal literals have their
      decimal value, and [x / 0 = 0].
    - An Eigen [VectorXr] is a [list Real]; [x.Vec3Block(i)] reads or writes
      the entries [3i], [3i+1], [3i+2].  Reads outside a vector give [0] and
      writes outside a vector do nothing (the source never does either on
      well-formed data).  A vector that the source declares without
      initialising it starts as zeros; the source writes every entry before
      it reads it.
    - Every [#pragma omp for] loop is run in index order.  The only shared
      writes are the atomic additions into the accumulators, and addition
      of exact numbers is associative and commutative.
    - Particle counts are small enough for [unsigned int] arithmetic not to
      wrap.
    - State is passed explicitly: a method of [TimeStepPF] is a function from
      the object to the object after the call. *)

From Stdlib Require Import QArith Qcanon Qcabs ZArith Lia.
From stdpp Require Import base numbers list.

(** ** Scalars and vectors *)

Abbreviation Real := Qc (only parsing).

Definition Real_of_nat (n : nat) : Real := Qc_of_Z (Z.of_nat n).

Record Vector3r := mkVector3r { v0 : Real; v1 : Real; v2 : Real }.

Definition Vector3r_zero : Vector3r := mkVector3r 0 0 0.

Global Instance Vector3r_eq_dec : EqDecision Vector3r.
Proof. solve_decision. Defined.

(** [v[c]] for [c] in [0..2]. *)
Definition coeff (v : Vector3r) (c : nat) : Real :=
  match c with
  | 0 => v0 v
  | 1 => v1 v
  | _ => v2 v
  end.

Definition add3 (a b : Vector3r) : Vector3r :=
  mkVector3r (v0 a + v0 b) (v1 a + v1 b) (v2 a + v2 b).

Definition sub3 (a b : Vector3r) : Vector3r :=
  mkVector3r (v0 a - v0 b) (v1 a - v1 b) (v2 a - v2 b).

Definition scale3 (k : Real) (a : Vector3r) : Vector3r :=
  mkVector3r (k * v0 a) (k * v1 a) (k * v2 a).

Definition div3 (a : Vector3r) (k : Real) : Vector3r :=
  mkVector3r (v0 a / k) (v1 a / k) (v2 a / k).

Abbreviation VectorXr := (list Real) (only parsing).

(** [x[k]]. *)
Definition at_ (x : VectorXr) (k : nat) : Real := default 0%Qc (x !! k).

(** Reading [x.Vec3Block(i)]. *)
Definition Vec3Block (x : VectorXr) (i : nat) : Vector3r :=
  mkVector3r (at_ x (3 * i)) (at_ x (3 * i + 1)) (at_ x (3 * i + 2)).

(** [x.Vec3Block(i) = v]. *)
Definition setVec3Block (x : VectorXr) (i : nat) (v : Vector3r) : VectorXr :=
  <[3 * i + 2 := v2 v]> (<[3 * i + 1 := v1 v]> (<[3 * i := v0 v]> x)).

Definition vsum (a : VectorXr) : Real := foldr Qcplus 0%Qc a.

Definition dot (a b : VectorXr) : Real := vsum (zip_with Qcmult a b).

Definition squaredNorm (a : VectorXr) : Real := dot a a.

Definition vadd (a b : VectorXr) : VectorXr := zip_with Qcplus a b.

Definition vsub (a b : VectorXr) : VectorXr := zip_with Qcminus a b.

Definition vscale (k : Real) (a : VectorXr) : VectorXr := Qcmult k <$> a.

(** ** The collaborators of the time step *)

(** An entry of a neighbour list: the point set (0 is the fluid) and the
    index inside that set. *)
Record NeighborId := mkNeighborId { point_set_id : nat; point_id : nat }.

(** Modelled from the spec: the particle container [FluidModel], whose
    declaration is not part of the sources.  It gives, per fluid particle,
    position, velocity, acceleration and mass; the rest density and the
    stiffness; position and psi of boundary particles; the neighbour lists;
    and the kernel with its gradient and its value at distance zero. *)
Record FluidModel := mkFluidModel {
  numParticles : nat;
  fluidPosition : list Vector3r;
  fluidVelocity : list Vector3r;
  fluidAcceleration : list Vector3r;
  fluidMass : list Real;
  getDensity0 : Real;
  getStiffness : Real;
  boundaryPosition : nat → nat → Vector3r;
  getBoundaryPsi : nat → nat → Real;
  neighborLists : list (list NeighborId);
  W_zero : Real;
  W : Vector3r → Real;
  gradW : Vector3r → Vector3r
}.

Definition getPosition (m : FluidModel) (set i : nat) : Vector3r :=
  match set with
  | 0 => default Vector3r_zero (fluidPosition m !! i)
  | _ => boundaryPosition m set i
  end.

Definition getVelocity (m : FluidModel) (i : nat) : Vector3r :=
  default Vector3r_zero (fluidVelocity m !! i).

Definition getAcceleration (m : FluidModel) (i : nat) : Vector3r :=
  default Vector3r_zero (fluidAcceleration m !! i).

Definition getMass (m : FluidModel) (i : nat) : Real :=
  default 0%Qc (fluidMass m !! i).

Definition numberOfNeighbors (m : FluidModel) (i : nat) : nat :=
  length (default [] (neighborLists m !! i)).

Definition getNeighbor (m : FluidModel) (i j : nat) : NeighborId :=
  default (mkNeighborId 0 0) (default [] (neighborLists m !! i) !! j).

(** [setPosition(0, i, v)] and [setVelocity(0, i, v)]. *)
Definition setPosition (m : FluidModel) (i : nat) (v : Vector3r) : FluidModel :=
  mkFluidModel (numParticles m) (<[i := v]> (fluidPosition m)) (fluidVelocity m)
    (fluidAcceleration m) (fluidMass m) (getDensity0 m) (getStiffness m)
    (boundaryPosition m) (getBoundaryPsi m) (neighborLists m)
    (W_zero m) (W m) (gradW m).

Definition setVelocity (m : FluidModel) (i : nat) (v : Vector3r) : FluidModel :=
  mkFluidModel (numParticles m) (fluidPosition m) (<[i := v]> (fluidVelocity m))
    (fluidAcceleration m) (fluidMass m) (getDensity0 m) (getStiffness m)
    (boundaryPosition m) (getBoundaryPsi m) (neighborLists m)
    (W_zero m) (W m) (gradW m).

(** Modelled from the spec: the solver scratch [SimulationDataPF], whose
    declaration is not part of the sources: old position, predicted
    position [S], the flattened unknown [X] and the fluid-neighbour count
    of every particle. *)
Record SimulationDataPF := mkSimulationDataPF {
  oldPositions : list Vector3r;
  predictedPositions : list Vector3r;
  getX : VectorXr;
  fluidNeighborCounts : list nat
}.

Definition getOldPosition (d : SimulationDataPF) (i : nat) : Vector3r :=
  default Vector3r_zero (oldPositions d !! i).

Definition getS (d : SimulationDataPF) (i : nat) : Vector3r :=
  default Vector3r_zero (predictedPositions d !! i).

Definition getNumFluidNeighbors (d : SimulationDataPF) (i : nat) : nat :=
  default 0 (fluidNeighborCounts d !! i).

Definition setOldPosition (d : SimulationDataPF) (i : nat) (v : Vector3r) :=
  mkSimulationDataPF (<[i := v]> (oldPositions d)) (predictedPositions d)
    (getX d) (fluidNeighborCounts d).

Definition setS (d : SimulationDataPF) (i : nat) (v : Vector3r) :=
  mkSimulationDataPF (oldPositions d) (<[i := v]> (predictedPositions d))
    (getX d) (fluidNeighborCounts d).

Definition setX (d : SimulationDataPF) (x : VectorXr) :=
  mkSimulationDataPF (oldPositions d) (predictedPositions d) x
    (fluidNeighborCounts d).

Definition setNumFluidNeighbors (d : SimulationDataPF) (i n : nat) :=
  mkSimulationDataPF (oldPositions d) (predictedPositions d) (getX d)
    (<[i := n]> (fluidNeighborCounts d)).

(** The object [TimeStepPF]: the model, the scratch data, the step size of
    the time manager and the bound on the outer iterations. *)
Record TimeStepPF := mkTimeStepPF {
  m_model : FluidModel;
  m_simulationData : SimulationDataPF;
  getTimeStepSize : Real;
  m_maxIterations : nat
}.

Definition with_model (ts : TimeStepPF) (m : FluidModel) : TimeStepPF :=
  mkTimeStepPF m (m_simulationData ts) (getTimeStepSize ts) (m_maxIterations ts).

Definition with_data (ts : TimeStepPF) (d : SimulationDataPF) : TimeStepPF :=
  mkTimeStepPF (m_model ts) d (getTimeStepSize ts) (m_maxIterations ts).

(** ** Atomic accumulation *)

Abbreviation AtomicRealVec := (list Real) (only parsing).

(** [addToAtomicReal(a[k]._a, r)]: the compare-and-swap loop ends with
    [a[k] = a[k] + r]. *)
Definition addToAtomicReal (a : AtomicRealVec) (k : nat) (r : Real) : AtomicRealVec :=
  alter (λ current, (current + r)%Qc) k a.

(** [for (c = 0; c < 3; c++) addToAtomicReal(a[3 * i + c]._a, v[c])]. *)
Definition addBlockToAtomic (a : AtomicRealVec) (i : nat) (v : Vector3r) : AtomicRealVec :=
  foldl (λ a c, addToAtomicReal a (3 * i + c) (coeff v c)) a (seq 0 3).

(** ** matrixFreeLHS *)

(** The body of the first loop of [matrixFreeLHS] for particle [i]. *)
Definition lhs_accumulate_particle (m : FluidModel) (x : VectorXr)
    (accumulator : AtomicRealVec) (i : nat) : AtomicRealVec :=
  let numNeighbors := numberOfNeighbors m i in
  let xi := Vec3Block x i in
  let accumulator := addBlockToAtomic accumulator i xi in
  foldl (λ accumulator j,
           let id := getNeighbor m i j in
           if decide (point_set_id id ≠ 0) then accumulator
           else
             let xj := Vec3Block x (point_id id) in
             addBlockToAtomic accumulator (point_id id) xj)
        accumulator (seq 0 numNeighbors).

(** The accumulator after the first loop: it starts as [numVariables]
    zeros. *)
Definition lhs_accumulator (m : FluidModel) (x : VectorXr) : AtomicRealVec :=
  foldl (lhs_accumulate_particle m x)
        (replicate (3 * numParticles m) 0%Qc) (seq 0 (numParticles m)).

(** The body of the second loop: the three writes into [result]. *)
Definition lhs_combine_particle (m : FluidModel) (system_scale : Real)
    (accumulator : AtomicRealVec) (x : VectorXr)
    (result : VectorXr) (i : nat) : VectorXr :=
  let mass := getMass m i in
  foldl (λ result c,
           let id := 3 * i + c in
           <[id := (system_scale * at_ accumulator id + mass * at_ x id)%Qc]> result)
        result (seq 0 3).

Definition matrixFreeLHS (ts : TimeStepPF) (x result : VectorXr) : VectorXr :=
  let m := m_model ts in
  let h := getTimeStepSize ts in
  let accumulator := lhs_accumulator m x in
  let system_scale := (h * h * getStiffness m)%Qc in
  foldl (lhs_combine_particle m system_scale accumulator x)
        result (seq 0 (numParticles m)).

(** ** matrixFreeRHS *)

Definition C_goal : Real := Q2Qc (1 # 100000000000000).
Definition max_steps : nat := 100.
Definition regularization : Real := Q2Qc (1 # 1000000).

(** [p[k]] of the local position vector. *)
Definition local_at (p : list Vector3r) (k : nat) : Vector3r :=
  default Vector3r_zero (p !! k).

(** The local positions of the constraint of particle [i]: itself, then
    one entry per neighbour. *)
Definition gather_local (m : FluidModel) (x : VectorXr) (i : nat) : list Vector3r :=
  let numNeighbors := numberOfNeighbors m i in
  let p := replicate (numNeighbors + 1) Vector3r_zero in
  let p := <[0 := Vec3Block x i]> p in
  foldl (λ p j,
           let id := getNeighbor m i j in
           if decide (point_set_id id = 0)
           then <[j + 1 := Vec3Block x (point_id id)]> p
           else <[j + 1 := getPosition m (point_set_id id) (point_id id)]> p)
        p (seq 0 numNeighbors).

(** The lambda [calculateC] of particle [i] on the local positions [p]. *)
Definition calculateC (m : FluidModel) (i : nat) (p : list Vector3r) : Real :=
  let density0_inv := (1 / getDensity0 m)%Qc in
  let numNeighbors := numberOfNeighbors m i in
  let density := (getMass m i * W_zero m)%Qc in
  let xi := local_at p 0 in
  let density :=
    foldl (λ density j,
             let id := getNeighbor m i j in
             let xj := local_at p (j + 1) in
             if decide (point_set_id id = 0)
             then (density + getMass m (point_id id) * W m (sub3 xi xj))%Qc
             else (density + getBoundaryPsi m (point_set_id id) (point_id id)
                             * W m (sub3 xi xj))%Qc)
          density (seq 0 numNeighbors) in
  let C := (density * density0_inv - 1)%Qc in
  if decide (C < 0)%Qc then 0%Qc else C.

(** The lambda [calculateNablaC]. *)
Definition calculateNablaC (m : FluidModel) (i : nat) (p : list Vector3r) : VectorXr :=
  let density0_inv := (1 / getDensity0 m)%Qc in
  let numNeighbors := numberOfNeighbors m i in
  let nablaC := replicate (3 * length p) 0%Qc in
  let nablaC := setVec3Block nablaC 0 Vector3r_zero in
  let xi := local_at p 0 in
  foldl (λ nablaC j,
           let id := getNeighbor m i j in
           let xj := local_at p (j + 1) in
           let coefficient :=
             if decide (point_set_id id = 0)
             then (- density0_inv * getMass m (point_id id))%Qc
             else (- density0_inv * getBoundaryPsi m (point_set_id id) (point_id id))%Qc in
           let nablaC := setVec3Block nablaC (j + 1)
                           (scale3 coefficient (gradW m (sub3 xi xj))) in
           setVec3Block nablaC 0
             (sub3 (Vec3Block nablaC 0) (Vec3Block nablaC (j + 1))))
        nablaC (seq 0 numNeighbors).

(** The moves of one projection step: [p[0]] and the entry of every fluid
    neighbour. *)
Definition move_local (ts : TimeStepPF) (i : nat) (cdg : Real) (g : VectorXr)
    (p : list Vector3r) : list Vector3r :=
  let m := m_model ts in
  let d := m_simulationData ts in
  let p := <[0 := add3 (local_at p 0)
                    (scale3 (cdg * Real_of_nat (getNumFluidNeighbors d i))
                            (Vec3Block g 0))]> p in
  foldl (λ p j,
           let id := getNeighbor m i j in
           if decide (point_set_id id = 0)
           then
             let nfn := getNumFluidNeighbors d (point_id id) in
             <[j + 1 := add3 (local_at p (j + 1))
                          (scale3 (cdg * Real_of_nat nfn) (Vec3Block g (j + 1)))]> p
           else p)
        p (seq 0 (numberOfNeighbors m i)).

(** The state of the projection loop; [proj_steps] counts the executions
    of the body and is not a variable of the source. *)
Record Projection := mkProjection {
  proj_p : list Vector3r;
  proj_C : Real;
  proj_it : nat;
  proj_steps : nat
}.

(** [while ((std::abs(C) > C_goal) && it++ < max_steps) { ... }].  The
    second conjunct is evaluated, and [it] incremented, only when the first
    one holds. *)
Fixpoint projection_loop (ts : TimeStepPF) (i : nat) (fuel : nat)
    (s : Projection) : Projection :=
  match fuel with
  | 0 => s
  | S fuel =>
    let C := proj_C s in
    let p := proj_p s in
    if decide (C_goal < Qcabs C)%Qc then
      if decide (proj_it s < max_steps) then
        let it := proj_it s + 1 in
        let g := calculateNablaC (m_model ts) i p in
        let dg := squaredNorm g in
        if decide (dg = 0%Qc) then mkProjection p C it (proj_steps s + 1)
        else
          let cdg := (- C / (dg + regularization))%Qc in
          let p := move_local ts i cdg g p in
          let C := if decide (it + 1 < max_steps)
                   then calculateC (m_model ts) i p else C in
          projection_loop ts i fuel (mkProjection p C it (proj_steps s + 1))
      else mkProjection p C (proj_it s + 1) (proj_steps s)
    else s
  end.

(** The projection of particle [i]: [it] runs from 0 and the loop is left
    at the latest when [it] reaches [max_steps]. *)
Definition project (ts : TimeStepPF) (i : nat) : Projection :=
  let m := m_model ts in
  let p := gather_local m (getX (m_simulationData ts)) i in
  projection_loop ts i (S max_steps) (mkProjection p (calculateC m i p) 0 0).

(** The update of the right-hand side accumulator with the projected
    positions [p]. *)
Definition rhs_accumulate_local (m : FluidModel) (i : nat) (p : list Vector3r)
    (accumulator : AtomicRealVec) : AtomicRealVec :=
  let accumulator := addBlockToAtomic accumulator i (local_at p 0) in
  foldl (λ accumulator j,
           let id := getNeighbor m i j in
           if decide (point_set_id id ≠ 0) then accumulator
           else addBlockToAtomic accumulator (point_id id) (local_at p (j + 1)))
        accumulator (seq 0 (numberOfNeighbors m i)).

(** The body of the first loop of [matrixFreeRHS] for particle [i]. *)
Definition rhs_accumulate_particle (ts : TimeStepPF)
    (accumulator : AtomicRealVec) (i : nat) : AtomicRealVec :=
  rhs_accumulate_local (m_model ts) i (proj_p (project ts i)) accumulator.

Definition rhs_accumulator (ts : TimeStepPF) : AtomicRealVec :=
  foldl (rhs_accumulate_particle ts)
        (replicate (3 * numParticles (m_model ts)) 0%Qc)
        (seq 0 (numParticles (m_model ts))).

Definition rhs_combine_particle (ts : TimeStepPF) (system_scale : Real)
    (accumulator : AtomicRealVec) (result : VectorXr) (i : nat) : VectorXr :=
  let mass := getMass (m_model ts) i in
  let s := getS (m_simulationData ts) i in
  foldl (λ result c,
           let id := 3 * i + c in
           <[id := (system_scale * at_ accumulator id + mass * coeff s c)%Qc]> result)
        result (seq 0 3).

Definition matrixFreeRHS (ts : TimeStepPF) (result : VectorXr) : VectorXr :=
  let m := m_model ts in
  let h := getTimeStepSize ts in
  let accumulator := rhs_accumulator ts in
  let system_scale := (h * h * getStiffness m)%Qc in
  foldl (rhs_combine_particle ts system_scale accumulator)
        result (seq 0 (numParticles m)).

(** ** The conjugate-gradient solver *)

(** [calculateNegativeGradient(r, b, updateRhs)] returns the new [r] and
    [b]. *)
Definition calculateNegativeGradient (ts : TimeStepPF) (r b : VectorXr)
    (updateRhs : bool) : VectorXr * VectorXr :=
  let x := getX (m_simulationData ts) in
  let r := matrixFreeLHS ts x r in
  let b := if updateRhs then matrixFreeRHS ts b else b in
  (vsub b r, b).

(** Modelled from the spec: the enumeration [CGSolveState] of the header,
    the three outcomes of the solver. *)
Inductive CGSolveState := ALREADY_SOLVED | CONVERGED | MAX_ITER_REACHED.

Global Instance CGSolveState_eq_dec : EqDecision CGSolveState.
Proof. solve_decision. Defined.

Definition restart_iterations : nat := 50.
Definition tol_abs : Real := Q2Qc (1 # 10000000000).
Definition tol_rel : Real := Q2Qc (1 # 100000000).

Definition numVariables (ts : TimeStepPF) : nat := 3 * numParticles (m_model ts).

(** [(delta_new < tol_abs) || (delta_new < tol_rel * delta_0)]. *)
Definition cg_converged (delta_new delta_0 : Real) : bool :=
  bool_decide (delta_new < tol_abs)%Qc || bool_decide (delta_new < tol_rel * delta_0)%Qc.

(** The variables of [cgSolve] that live across iterations; [x] is a view
    of the unknown stored in the simulation data. *)
Record CGVars := mkCGVars {
  cg_ts : TimeStepPF;
  cg_r : VectorXr;
  cg_d : VectorXr;
  cg_q : VectorXr;
  cg_delta_new : Real;
  cg_delta_old : Real
}.

Definition cg_x (s : CGVars) : VectorXr := getX (m_simulationData (cg_ts s)).

(** The first part of the loop body, up to the convergence test. *)
Definition cg_advance (b : VectorXr) (cg_it : nat) (s : CGVars) : CGVars :=
  let ts := cg_ts s in
  let d := cg_d s in
  let q := matrixFreeLHS ts d (cg_q s) in
  let alpha := (cg_delta_new s / dot d q)%Qc in
  let ts := with_data ts (setX (m_simulationData ts)
                               (vadd (getX (m_simulationData ts)) (vscale alpha d))) in
  let r := if decide ((cg_it + 1) `mod` restart_iterations = 0)
           then fst (calculateNegativeGradient ts (cg_r s) b false)
           else vsub (cg_r s) (vscale alpha q) in
  let delta_old := cg_delta_new s in
  let delta_new := squaredNorm r in
  mkCGVars ts r d q delta_new delta_old.

(** The second part of the loop body: the new search direction. *)
Definition cg_direction (s : CGVars) : CGVars :=
  let beta := (cg_delta_new s / cg_delta_old s)%Qc in
  let d := vscale beta (cg_d s) in
  let d := vadd d (cg_r s) in
  mkCGVars (cg_ts s) (cg_r s) d (cg_q s) (cg_delta_new s) (cg_delta_old s).

(** [for (cg_it = 0; cg_it < numVariables; cg_it++)], with [n] the number
    of iterations left.  The third component counts the iterations that
    were run. *)
Fixpoint cg_loop (b : VectorXr) (delta_0 : Real) (n cg_it : nat) (s : CGVars)
    : CGSolveState * CGVars * nat :=
  match n with
  | 0 => (MAX_ITER_REACHED, s, cg_it)
  | S n =>
    let s := cg_advance b cg_it s in
    if cg_converged (cg_delta_new s) delta_0 then (CONVERGED, s, S cg_it)
    else cg_loop b delta_0 n (S cg_it) (cg_direction s)
  end.

(** [std::numeric_limits<Real>::max()], the first value of [delta_old];
    the loop overwrites it before it reads it, so any large number does. *)
Definition max_Real : Real := Q2Qc (2 ^ 1024).

(** The initialisation of [cgSolve]: [b], the first residual and the first
    direction. *)
Definition cg_init (ts : TimeStepPF) : CGVars * VectorXr :=
  let zeros := replicate (numVariables ts) 0%Qc in
  let '(r, b) := calculateNegativeGradient ts zeros zeros true in
  let d := r in
  let delta_new := squaredNorm r in
  (mkCGVars ts r d zeros delta_new max_Real, b).

(** [cgSolve] with the variables at exit and the number of iterations. *)
Definition cgSolve_run (ts : TimeStepPF) : CGSolveState * CGVars * nat :=
  let '(s, b) := cg_init ts in
  let delta_0 := cg_delta_new s in
  if cg_converged (cg_delta_new s) delta_0 then (ALREADY_SOLVED, s, 0)
  else cg_loop b delta_0 (numVariables ts) 0 s.

(** [cgSolve()]: the returned state and the object after the call. *)
Definition cgSolve (ts : TimeStepPF) : CGSolveState * TimeStepPF :=
  let '(state, s, _) := cgSolve_run ts in (state, cg_ts s).

(** ** The step driver *)

(** The loop body of [initialGuessForPositions]. *)
Definition initialGuess_particle (ts : TimeStepPF) (i : nat) : TimeStepPF :=
  let h := getTimeStepSize ts in
  let m := m_model ts in
  let d := setOldPosition (m_simulationData ts) i (getPosition m 0 i) in
  let newPos := add3 (add3 (getPosition m 0 i) (scale3 h (getVelocity m i)))
                     (scale3 (h * h) (getAcceleration m i)) in
  let m := setPosition m i newPos in
  let d := setS d i newPos in
  mkTimeStepPF m d h (m_maxIterations ts).

Definition initialGuessForPositions (ts : TimeStepPF) : TimeStepPF :=
  foldl initialGuess_particle ts (seq 0 (numParticles (m_model ts))).

(** The number of fluid neighbours of [i], counted from [1u]. *)
Definition count_fluid_neighbors (m : FluidModel) (i : nat) : nat :=
  foldl (λ nfn j, if decide (point_set_id (getNeighbor m i j) = 0)
                  then nfn + 1 else nfn)
        1 (seq 0 (numberOfNeighbors m i)).

Definition prepareSolve_particle (m : FluidModel) (d : SimulationDataPF)
    (i : nat) : SimulationDataPF :=
  let d := setX d (setVec3Block (getX d) i (getPosition m 0 i)) in
  setNumFluidNeighbors d i (count_fluid_neighbors m i).

Definition prepareSolve (ts : TimeStepPF) : TimeStepPF :=
  let m := m_model ts in
  with_data ts (foldl (prepareSolve_particle m) (m_simulationData ts)
                      (seq 0 (numParticles m))).

Definition updatePositionsAndVelocity_particle (h : Real) (d : SimulationDataPF)
    (m : FluidModel) (i : nat) : FluidModel :=
  let m := setPosition m i (Vec3Block (getX d) i) in
  let vel := div3 (sub3 (getPosition m 0 i) (getOldPosition d i)) h in
  setVelocity m i vel.

Definition updatePositionsAndVelocity (ts : TimeStepPF) : TimeStepPF :=
  let d := m_simulationData ts in
  with_model ts (foldl (updatePositionsAndVelocity_particle (getTimeStepSize ts) d)
                       (m_model ts) (seq 0 (numParticles (m_model ts)))).

(** [for (it = 0; it < m_maxIterations; it++)] of [solvePDConstraints],
    with [n] the number of iterations left; the second component counts the
    calls of [cgSolve]. *)
Fixpoint pd_loop (n : nat) (ts : TimeStepPF) (solves : nat) : TimeStepPF * nat :=
  match n with
  | 0 => (ts, solves)
  | S n =>
    let '(s, ts) := cgSolve ts in
    if decide (s = ALREADY_SOLVED) then (ts, S solves)
    else pd_loop n ts (S solves)
  end.

Definition solvePDConstraints_run (ts : TimeStepPF) : TimeStepPF * nat :=
  let ts := prepareSolve ts in
  let '(ts, solves) := pd_loop (m_maxIterations ts) ts 0 in
  (updatePositionsAndVelocity ts, solves).

Definition solvePDConstraints (ts : TimeStepPF) : TimeStepPF :=
  fst (solvePDConstraints_run ts).

(** The loop body of [addAccellerationToVelocity]. *)
Definition addAccellerationToVelocity_particle (h : Real) (m : FluidModel)
    (i : nat) : FluidModel :=
  setVelocity m i (add3 (getVelocity m i) (scale3 h (getAcceleration m i))).

Definition addAccellerationToVelocity (ts : TimeStepPF) : TimeStepPF :=
  let h := getTimeStepSize ts in
  with_model ts (foldl (addAccellerationToVelocity_particle h) (m_model ts)
                       (seq 0 (numParticles (m_model ts)))).

(** Modelled from the spec: the neighbourhood search of the base class,
    which is not part of the sources, on a step that does not sort: it leaves
    the particles alone and gives the model new neighbour lists. *)
Definition setNeighborLists (ts : TimeStepPF) (lists : list (list NeighborId))
    : TimeStepPF :=
  let m := m_model ts in
  with_model ts
    (mkFluidModel (numParticles m) (fluidPosition m) (fluidVelocity m)
       (fluidAcceleration m) (fluidMass m) (getDensity0 m) (getStiffness m)
       (boundaryPosition m) (getBoundaryPsi m) lists
       (W_zero m) (W m) (gradW m)).

(** ** Notions used by the statements *)

(** The neighbour list of particle [i]. *)
Definition neighborsOf (m : FluidModel) (i : nat) : list NeighborId :=
  default [] (neighborLists m !! i).

(** How often the fluid particle [t] occurs in a neighbour list. *)
Definition occurrences (t : nat) (l : list NeighborId) : nat :=
  length (filter (λ id, point_set_id id = 0 ∧ point_id id = t) l).

(** The number of additions into the block of particle [t] that the visit
    of particle [i] makes: one when [i = t], and one for every entry of the
    neighbour list of [i] that names the fluid particle [t]. *)
Definition visits (m : FluidModel) (i t : nat) : nat :=
  (if decide (i = t) then 1 else 0) + occurrences t (neighborsOf m i).

(** The number of additions into the block of [t] over the whole loop. *)
Definition coupling_count (m : FluidModel) (t : nat) : nat :=
  sum_list_with (λ i, visits m i t) (seq 0 (numParticles m)).

(** The factor that [matrixFreeLHS] applies to the block of particle [t]. *)
Definition diagonal_entry (ts : TimeStepPF) (t : nat) : Real :=
  let m := m_model ts in
  let h := getTimeStepSize ts in
  (h * h * getStiffness m * Real_of_nat (coupling_count m t) + getMass m t)%Qc.

Definition operator_diagonal (ts : TimeStepPF) : VectorXr :=
  (λ k, diagonal_entry ts (k `div` 3)) <$> seq 0 (numVariables ts).

(** The conjugate-gradient loop as the specification words its cheap
    branch: the residual is always updated as [r -= alpha * q] and never
    recomputed.  It is the reference against which the restart of the
    source is compared. *)
Definition cg_advance_incremental (s : CGVars) : CGVars :=
  let ts := cg_ts s in
  let d := cg_d s in
  let q := matrixFreeLHS ts d (cg_q s) in
  let alpha := (cg_delta_new s / dot d q)%Qc in
  let ts := with_data ts (setX (m_simulationData ts)
                               (vadd (getX (m_simulationData ts)) (vscale alpha d))) in
  let r := vsub (cg_r s) (vscale alpha q) in
  mkCGVars ts r d q (squaredNorm r) (cg_delta_new s).

Fixpoint cg_loop_incremental (delta_0 : Real) (n cg_it : nat) (s : CGVars)
    : CGSolveState * CGVars * nat :=
  match n with
  | 0 => (MAX_ITER_REACHED, s, cg_it)
  | S n =>
    let s := cg_advance_incremental s in
    if cg_converged (cg_delta_new s) delta_0 then (CONVERGED, s, S cg_it)
    else cg_loop_incremental delta_0 n (S cg_it) (cg_direction s)
  end.

Definition cgSolve_run_incremental (ts : TimeStepPF) : CGSolveState * CGVars * nat :=
  let '(s, b) := cg_init ts in
  let delta_0 := cg_delta_new s in
  if cg_converged (cg_delta_new s) delta_0 then (ALREADY_SOLVED, s, 0)
  else cg_loop_incremental delta_0 (numVariables ts) 0 s.

(** The residual of [s] is the exact one: recomputing it from [b] and the
    current [x], as the restart does, gives it back.  Every vector of the
    solver has [numVariables] entries. *)
Definition residual_exact (b : VectorXr) (s : CGVars) : Prop :=
  let n := numVariables (cg_ts s) in
  length (cg_x s) = n ∧ length (cg_r s) = n ∧ length (cg_d s) = n ∧
  length (cg_q s) = n ∧ length b = n ∧
  cg_r s = (calculateNegativeGradient (cg_ts s) (cg_r s) b false).1.

(** The variables at the head of iteration [k] of the loop of [cgSolve]
    (after [k] complete iterations), when no convergence test has stopped
    it. *)
Fixpoint cg_trace (b : VectorXr) (s0 : CGVars) (k : nat) : CGVars :=
  match k with
  | 0 => s0
  | S k => cg_direction (cg_advance b k (cg_trace b s0 k))
  end.

(** The variables of iteration [k] at its convergence test. *)
Definition cg_after (b : VectorXr) (s0 : CGVars) (k : nat) : CGVars :=
  cg_advance b k (cg_trace b s0 k).

(** The outcome of the convergence test of iteration [k]. *)
Definition cg_test (b : VectorXr) (s0 : CGVars) (k : nat) : bool :=
  cg_converged (cg_delta_new (cg_after b s0 k)) (cg_delta_new s0).

(** The residual [b - A x] of the system, computed afresh. *)
Definition true_residual (ts : TimeStepPF) (b x : VectorXr) : VectorXr :=
  vsub b (matrixFreeLHS ts x (replicate (numVariables ts) 0%Qc)).

(** The convergence test as the specification words it: the squared
    residual norm [delta] is below [1e-10], or below [1e-8] times the
    initial squared residual norm [delta_0]. *)
Definition passes_convergence_test (delta delta_0 : Real) : Prop :=
  (delta < Q2Qc (1 # 10000000000))%Qc ∨
  (delta < Q2Qc (1 # 100000000) * delta_0)%Qc.

(** An iterate of the conjugate-gradient method: the approximation, its
    residual and the search direction. *)
Record CGIterate := mkCGIterate {
  it_x : VectorXr;
  it_r : VectorXr;
  it_d : VectorXr
}.

(** The iterates of the conjugate-gradient method for the system
    [A x = b], with [A] the operator of [matrixFreeLHS], written from the
    method and not from the loop of [cgSolve]: the first residual is
    [b - A x0] and is the first direction; then
    [x' = x + alpha d] with [alpha = r·r / d·(A d)], the residual of [x'] is
    [b - A x'], and [d' = r' + (r'·r' / r·r) d].  It is the reference against
    which the loop of the source is compared. *)
Fixpoint cg_iterate (ts : TimeStepPF) (b x0 : VectorXr) (k : nat) : CGIterate :=
  match k with
  | 0 => let r := true_residual ts b x0 in mkCGIterate x0 r r
  | S k =>
    let s := cg_iterate ts b x0 k in
    let q := matrixFreeLHS ts (it_d s) (replicate (numVariables ts) 0%Qc) in
    let alpha := (squaredNorm (it_r s) / dot (it_d s) q)%Qc in
    let x := vadd (it_x s) (vscale alpha (it_d s)) in
    let r := true_residual ts b x in
    let beta := (squaredNorm r / squaredNorm (it_r s))%Qc in
    mkCGIterate x r (vadd (vscale beta (it_d s)) r)
  end.

(** The inertial guess of particle [i]:
    [position + h * velocity + h² * acceleration]. *)
Definition inertial_guess (ts : TimeStepPF) (i : nat) : Vector3r :=
  let m := m_model ts in
  let h := getTimeStepSize ts in
  add3 (add3 (getPosition m 0 i) (scale3 h (getVelocity m i)))
       (scale3 (h * h) (getAcceleration m i)).

Definition Qcmax (a b : Real) : Real := if decide (a < b)%Qc then b else a.

(** The weight of neighbour [j] of particle [i] in the density: its mass
    when it is a fluid particle, its psi when it is a boundary particle. *)
Definition neighbor_weight (m : FluidModel) (i j : nat) : Real :=
  let id := getNeighbor m i j in
  if decide (point_set_id id = 0) then getMass m (point_id id)
  else getBoundaryPsi m (point_set_id id) (point_id id).

(** The density of particle [i] on the local positions [p]: its own mass
    times the kernel at distance zero, plus the weight of every neighbour
    times the kernel at the displacement [p[0] - p[j + 1]]. *)
Definition density (m : FluidModel) (i : nat) (p : list Vector3r) : Real :=
  (getMass m i * W_zero m
   + vsum ((λ j, neighbor_weight m i j
                 * W m (sub3 (local_at p 0) (local_at p (j + 1))))%Qc
           <$> seq 0 (numberOfNeighbors m i)))%Qc.

(** Entry [k] of the local positions after one projection step with step
    size [cdg] along the gradient [g]: the own position ([k = 0]) and the
    position of a fluid neighbour move by the step times the
    fluid-neighbour count of that particle times their gradient block; the
    position of a boundary neighbour stays. *)
Definition moved_position (ts : TimeStepPF) (i : nat) (cdg : Real) (g : VectorXr)
    (p : list Vector3r) (k : nat) : Vector3r :=
  let d := m_simulationData ts in
  match k with
  | 0 => add3 (local_at p 0)
              (scale3 (cdg * Real_of_nat (getNumFluidNeighbors d i)) (Vec3Block g 0))
  | S j =>
    let id := getNeighbor (m_model ts) i j in
    if decide (point_set_id id = 0)
    then add3 (local_at p k)
              (scale3 (cdg * Real_of_nat (getNumFluidNeighbors d (point_id id)))
                      (Vec3Block g k))
    else local_at p k
  end.

(** What the visit of particle [i] with local positions [p] adds to the
    entry [3 t + c] of the right-hand side accumulator: [p[0][c]] when
    [i = t], and [p[j + 1][c]] for every neighbour [j] that is the fluid
    particle [t]. *)
Definition local_contribution (m : FluidModel) (i : nat) (p : list Vector3r)
    (t c : nat) : Real :=
  ((if decide (i = t) then coeff (local_at p 0) c else 0)
   + vsum ((λ j, let id := getNeighbor m i j in
                 if decide (point_set_id id = 0%nat ∧ point_id id = t)
                 then coeff (local_at p (j + 1)) c else 0)
           <$> seq 0 (numberOfNeighbors m i)))%Qc.

(** The state of the projection loop of particle [i] at its entry. *)
Definition projection_start (ts : TimeStepPF) (i : nat) : Projection :=
  let m := m_model ts in
  let p := gather_local m (getX (m_simulationData ts)) i in
  mkProjection p (calculateC m i p) 0 0.





(** Positive masses and a stiffness that is not negative. *)
Definition positive_system (ts : TimeStepPF) : Prop :=
  (∀ i, i < numParticles (m_model ts) → (0 < getMass (m_model ts) i)%Qc) ∧
  (0 ≤ getStiffness (m_model ts))%Qc.

(** [ts'] has the model and the step size of [ts]. *)
Definition same_system (ts ts' : TimeStepPF) : Prop :=
  m_model ts' = m_model ts ∧ getTimeStepSize ts' = getTimeStepSize ts.

(** ** A concrete configuration

    Two fluid particles on the x axis, of masses 1 and 10, and one boundary
    particle below the first one.  The first particle has both others as
    neighbours, the second one only the first.  The kernel is the tent
    [max (1 - |v|_1) 0] of radius 1, the rest density is 12, the stiffness
    1/10 and the step size 1.  The first particle is compressed, the second
    is not. *)

Definition norm1 (v : Vector3r) : Real :=
  (Qcabs (v0 v) + Qcabs (v1 v) + Qcabs (v2 v))%Qc.

Definition sign (x : Real) : Real :=
  if decide (0 < x)%Qc then 1%Qc
  else if decide (x < 0)%Qc then (- 1)%Qc else 0%Qc.

Definition tent_W (v : Vector3r) : Real :=
  if decide (norm1 v < 1)%Qc then (1 - norm1 v)%Qc else 0%Qc.

Definition tent_gradW (v : Vector3r) : Vector3r :=
  if decide (norm1 v < 1)%Qc
  then mkVector3r (- sign (v0 v)) (- sign (v1 v)) (- sign (v2 v))
  else Vector3r_zero.

Definition example_positions : list Vector3r :=
  [Vector3r_zero; mkVector3r (Q2Qc (1 # 2)) 0 0].

Definition example_model_with (stiffness : Real) : FluidModel := {|
  numParticles := 2;
  fluidPosition := example_positions;
  fluidVelocity := [Vector3r_zero; Vector3r_zero];
  fluidAcceleration := [Vector3r_zero; Vector3r_zero];
  fluidMass := [1%Qc; Q2Qc 10];
  getDensity0 := Q2Qc 12;
  getStiffness := stiffness;
  boundaryPosition := λ _ _, mkVector3r 0 (Q2Qc (- 1 # 2)) 0;
  getBoundaryPsi := λ _ _, Q2Qc 30;
  neighborLists := [[mkNeighborId 0 1; mkNeighborId 1 0]; [mkNeighborId 0 0]];
  W_zero := 1%Qc;
  W := tent_W;
  gradW := tent_gradW
|}.

Definition example_model : FluidModel := example_model_with (Q2Qc (1 # 10)).

Definition example_data : SimulationDataPF := {|
  oldPositions := example_positions;
  predictedPositions := example_positions;
  getX := replicate 6 0%Qc;
  fluidNeighborCounts := [0; 0]
|}.

(** The object as [solvePDConstraints] finds it, after the prediction and
    the neighbourhood search of a step that starts at rest. *)
Definition example_step : TimeStepPF := {|
  m_model := example_model;
  m_simulationData := example_data;
  getTimeStepSize := 1%Qc;
  m_maxIterations := 5
|}.

(** The same object with stiffness 0. *)
Definition example_momentum_only : TimeStepPF := {|
  m_model := example_model_with 0%Qc;
  m_simulationData := example_data;
  getTimeStepSize := 1%Qc;
  m_maxIterations := 5
|}.

(** The same object in motion, before the prediction: velocities along x
    and y and an acceleration along z. *)
Definition example_moving : TimeStepPF := {|
  m_model :=
    mkFluidModel 2 example_positions
      [mkVector3r 1 0 0; mkVector3r 0 (Q2Qc 2) 0]
      [mkVector3r 0 0 (Q2Qc (- 10)); mkVector3r 0 0 (Q2Qc (- 10))]
      [1%Qc; Q2Qc 10] (Q2Qc 12) (Q2Qc (1 # 10))
      (λ _ _, mkVector3r 0 (Q2Qc (- 1 # 2)) 0) (λ _ _, Q2Qc 30)
      [[mkNeighborId 0 1; mkNeighborId 1 0]; [mkNeighborId 0 0]]
      1%Qc tent_W tent_gradW;
  m_simulationData := example_data;
  getTimeStepSize := Q2Qc (1 # 2);
  m_maxIterations := 5
|}.

(** An object without particles. *)
Definition example_empty : TimeStepPF := {|
  m_model :=
    mkFluidModel 0 [] [] [] [] (Q2Qc 12) (Q2Qc (1 # 10))
      (λ _ _, Vector3r_zero) (λ _ _, 0%Qc) [] 1%Qc tent_W tent_gradW;
  m_simulationData := mkSimulationDataPF [] [] [] [];
  getTimeStepSize := 1%Qc;
  m_maxIterations := 5
|}.

(** A single fluid particle at the origin, slightly compressed between
    three boundary particles of psi 1 on the x axis, two on its left and one
    on its right: the gradients of the constraint almost cancel, and every
    pass of the projection takes the constraint value down by the factor
    4/5 only. *)
Definition example_slow : TimeStepPF := {|
  m_model :=
    mkFluidModel 1 [Vector3r_zero] [Vector3r_zero] [Vector3r_zero]
      [Q2Qc (199657 # 200)] (Q2Qc 1000) (Q2Qc (1 # 10))
      (λ _ id, match id with
               | 0 => mkVector3r (Q2Qc (- 1 # 2)) 0 0
               | 1 => mkVector3r (Q2Qc (- 1 # 4)) 0 0
               | _ => mkVector3r (Q2Qc (1 # 2)) 0 0
               end)
      (λ _ _, 1%Qc)
      [[mkNeighborId 1 0; mkNeighborId 1 1; mkNeighborId 1 2]]
      1%Qc tent_W tent_gradW;
  m_simulationData :=
    mkSimulationDataPF [Vector3r_zero] [Vector3r_zero] [0%Qc; 0%Qc; 0%Qc] [0];
  getTimeStepSize := 1%Qc;
  m_maxIterations := 5
|}.

(** ** Notions used by the further properties *)

(** The first loop of [matrixFreeLHS] with the particles visited in the
    order [order], as another schedule of the parallel loop would. *)
Definition lhs_accumulator_in_order (m : FluidModel) (x : VectorXr)
    (order : list nat) : AtomicRealVec :=
  foldl (lhs_accumulate_particle m x)
        (replicate (3 * numParticles m) 0%Qc) order.

(** The first loop of [matrixFreeRHS] with the particles visited in the
    order [order]. *)
Definition rhs_accumulator_in_order (ts : TimeStepPF) (order : list nat)
    : AtomicRealVec :=
  foldl (rhs_accumulate_particle ts)
        (replicate (3 * numParticles (m_model ts)) 0%Qc) order.

(** The sum of a list of vectors. *)
Definition sum3 (l : list Vector3r) : Vector3r := foldr add3 Vector3r_zero l.

(** [ts'] differs from [ts] at most in the unknown [x]. *)
Definition same_except_X (ts ts' : TimeStepPF) : Prop :=
  m_model ts' = m_model ts ∧
  getTimeStepSize ts' = getTimeStepSize ts ∧
  m_maxIterations ts' = m_maxIterations ts ∧
  oldPositions (m_simulationData ts') = oldPositions (m_simulationData ts) ∧
  predictedPositions (m_simulationData ts')
    = predictedPositions (m_simulationData ts) ∧
  fluidNeighborCounts (m_simulationData ts')
    = fluidNeighborCounts (m_simulationData ts).

(** The object after [k] calls of [cgSolve] in the loop of
    [solvePDConstraints]. *)
Fixpoint pd_trace (ts : TimeStepPF) (k : nat) : TimeStepPF :=
  match k with
  | 0 => ts
  | S k => (cgSolve (pd_trace ts k)).2
  end.

(** No particle is compressed at the positions held by [x]: the constraint
    value of every particle is within the goal of the projection. *)
Definition uncompressed (ts : TimeStepPF) : Prop :=
  ∀ i, i < numParticles (m_model ts) →
       (Qcabs (calculateC (m_model ts) i
                 (gather_local (m_model ts) (getX (m_simulationData ts)) i))
        ≤ C_goal)%Qc.

(** The number of entries of the neighbour list of particle [i] that name
    a fluid particle. *)
Definition fluid_entries (m : FluidModel) (i : nat) : nat :=
  length (filter (λ id, point_set_id id = 0) (neighborsOf m i)).

(** A single fluid particle of mass 2 without neighbours, away from its
    predicted position. *)
Definition example_single : TimeStepPF := {|
  m_model :=
    mkFluidModel 1 [mkVector3r 1 0 0] [Vector3r_zero] [Vector3r_zero]
      [Q2Qc 2] (Q2Qc 12) (Q2Qc (1 # 10))
      (λ _ _, Vector3r_zero) (λ _ _, 0%Qc) [[]] 1%Qc tent_W tent_gradW;
  m_simulationData :=
    mkSimulationDataPF [Vector3r_zero] [mkVector3r 0 1 0] [1%Qc; 0%Qc; 0%Qc] [1];
  getTimeStepSize := 1%Qc;
  m_maxIterations := 5
|}.

(** * Verification *)

(** ** Loops and indexed vectors *)

#[local] Arguments Nat.mul : simpl never.

Section loops.
Context {A : Type}.

(** The invariant rule of [for (j = 0; j < n; j++)]. *)
Lemma foldl_seq_invariant (P : nat → A → Prop) (f : A → nat → A) (a : A) (n : nat) :
  P 0 a →
  (∀ j a, j < n → P j a → P (S j) (f a j)) →
  P n (foldl f a (seq 0 n)).
Proof.
  intros H0 Hstep. induction n as [|n IH]; [done|].
  rewrite seq_S, foldl_app. simpl. apply Hstep; [lia|].
  apply IH. intros j b Hj. apply Hstep. lia.
Qed.

(** Two loops with bodies that agree below the bound agree. *)
Lemma foldl_seq_ext (f g : A → nat → A) (a : A) (n : nat) :
  (∀ j a, j < n → f a j = g a j) →
  foldl f a (seq 0 n) = foldl g a (seq 0 n).
Proof.
  intros Hfg. induction n as [|n IH]; [done|].
  rewrite seq_S, !foldl_app. simpl. rewrite IH by (intros; apply Hfg; lia).
  apply Hfg. lia.
Qed.
End loops.

Lemma at_insert_eq (x : VectorXr) (k : nat) (v : Real) :
  k < length x → at_ (<[k := v]> x) k = v.
Proof. intros Hk. unfold at_. by rewrite list_lookup_insert_eq. Qed.

Lemma at_insert_ne (x : VectorXr) (k k' : nat) (v : Real) :
  k ≠ k' → at_ (<[k := v]> x) k' = at_ x k'.
Proof. intros Hk. unfold at_. by rewrite list_lookup_insert_ne. Qed.

Lemma at_replicate (n k : nat) : at_ (replicate n 0%Qc) k = 0%Qc.
Proof.
  unfold at_. destruct (replicate n 0%Qc !! k) as [v|] eqn:E; [|done].
  apply lookup_replicate in E as [-> _]. done.
Qed.

Lemma at_lookup (x : VectorXr) (k : nat) :
  k < length x → x !! k = Some (at_ x k).
Proof.
  intros Hk. unfold at_. destruct (lookup_lt_is_Some_2 x k Hk) as [v ->]. done.
Qed.

(** Two vectors of one length with the same entries are equal. *)
Lemma vector_eq (x y : VectorXr) :
  length x = length y → (∀ k, k < length x → at_ x k = at_ y k) → x = y.
Proof.
  intros Hlen Hat. apply list_eq. intros k.
  destruct (decide (k < length x)) as [Hk|Hk].
  - rewrite !at_lookup by lia. by rewrite Hat.
  - rewrite !lookup_ge_None_2 by lia. done.
Qed.

Lemma length_addToAtomicReal (a : AtomicRealVec) (k : nat) (r : Real) :
  length (addToAtomicReal a k r) = length a.
Proof. apply length_alter. Qed.

Lemma at_addToAtomicReal (a : AtomicRealVec) (k k' : nat) (r : Real) :
  k' < length a →
  at_ (addToAtomicReal a k r) k' =
  (at_ a k' + (if decide (k = k') then r else 0))%Qc.
Proof.
  intros Hk. unfold at_, addToAtomicReal. destruct (decide (k = k')) as [->|Hne].
  - rewrite list_lookup_alter_eq. destruct (lookup_lt_is_Some_2 a k' Hk) as [v ->].
    done.
  - rewrite list_lookup_alter_ne by done. by rewrite Qcplus_0_r.
Qed.

Lemma length_addBlockToAtomic (a : AtomicRealVec) (i : nat) (v : Vector3r) :
  length (addBlockToAtomic a i v) = length a.
Proof. unfold addBlockToAtomic. simpl. by rewrite !length_addToAtomicReal. Qed.

(** Adding the block [v] at particle [i] changes the entry [3t + c] by
    [v[c]] when [t = i] and leaves it alone otherwise. *)
Lemma at_addBlockToAtomic (a : AtomicRealVec) (i t c : nat) (v : Vector3r) :
  c < 3 → 3 * t + c < length a →
  at_ (addBlockToAtomic a i v) (3 * t + c) =
  (at_ a (3 * t + c) + (if decide (i = t) then coeff v c else 0))%Qc.
Proof.
  intros Hc Hk. unfold addBlockToAtomic. simpl.
  rewrite !at_addToAtomicReal by (by rewrite ?length_addToAtomicReal).
  destruct (decide (i = t)) as [->|Hne].
  - destruct c as [|[|[|c]]]; [| | |lia];
      repeat (case_decide; [try lia|try lia]); simpl; ring.
  - repeat (case_decide; [lia|]). ring.
Qed.

Lemma coeff_Vec3Block (x : VectorXr) (t c : nat) :
  c < 3 → coeff (Vec3Block x t) c = at_ x (3 * t + c).
Proof.
  intros Hc. destruct c as [|[|[|c]]]; [| | |lia];
    cbn [coeff Vec3Block v0 v1 v2]; f_equal; lia.
Qed.

Lemma Real_of_nat_add (a b : nat) :
  Real_of_nat (a + b) = (Real_of_nat a + Real_of_nat b)%Qc.
Proof. unfold Real_of_nat. by rewrite Nat2Z.inj_add, Z2Qc_inj_add. Qed.

Lemma Real_of_nat_0 : Real_of_nat 0 = 0%Qc.
Proof. apply Z2Qc_inj_0. Qed.

Lemma Real_of_nat_1 : Real_of_nat 1 = 1%Qc.
Proof. apply Z2Qc_inj_1. Qed.

(** ** The operator of [matrixFreeLHS] *)

Lemma getNeighbor_lookup (m : FluidModel) (i j : nat) :
  j < numberOfNeighbors m i →
  neighborsOf m i !! j = Some (getNeighbor m i j).
Proof.
  unfold numberOfNeighbors, getNeighbor, neighborsOf. intros Hj.
  destruct (lookup_lt_is_Some_2 _ _ Hj) as [id ->]. done.
Qed.

Lemma occurrences_snoc (t : nat) (l : list NeighborId) (id : NeighborId) :
  occurrences t (l ++ [id]) =
  occurrences t l + (if decide (point_set_id id = 0 ∧ point_id id = t) then 1 else 0).
Proof.
  unfold occurrences. rewrite filter_app, length_app. f_equal.
  rewrite filter_cons, filter_nil. by case_decide.
Qed.

Lemma lhs_accumulate_particle_spec (m : FluidModel) (x : VectorXr)
    (acc : AtomicRealVec) (i t c : nat) :
  c < 3 → 3 * t + c < length acc →
  length (lhs_accumulate_particle m x acc i) = length acc ∧
  at_ (lhs_accumulate_particle m x acc i) (3 * t + c) =
  (at_ acc (3 * t + c) + Real_of_nat (visits m i t) * at_ x (3 * t + c))%Qc.
Proof.
  intros Hc Hk. unfold lhs_accumulate_particle, visits.
  set (acc0 := addBlockToAtomic acc i (Vec3Block x i)).
  pose (P := λ (j : nat) (a : AtomicRealVec),
    length a = length acc ∧
    at_ a (3 * t + c) =
    (at_ acc0 (3 * t + c)
     + Real_of_nat (occurrences t (take j (neighborsOf m i))) * at_ x (3 * t + c))%Qc).
  assert (P (numberOfNeighbors m i)
            (foldl (λ accumulator j,
                      let id := getNeighbor m i j in
                      if decide (point_set_id id ≠ 0) then accumulator
                      else addBlockToAtomic accumulator (point_id id)
                             (Vec3Block x (point_id id)))
                   acc0 (seq 0 (numberOfNeighbors m i)))) as [Hlen Hat].
  { apply foldl_seq_invariant.
    - split; [apply length_addBlockToAtomic|].
      rewrite take_0. unfold occurrences. simpl. rewrite Real_of_nat_0. ring.
    - intros j a Hj [Hlen Hat]. unfold P.
      rewrite (take_S_r _ _ _ (getNeighbor_lookup m i j Hj)), occurrences_snoc.
      simpl. destruct (decide (point_set_id (getNeighbor m i j) ≠ 0)) as [Hb|Hf].
      + split; [done|]. rewrite decide_False by tauto.
        by rewrite Nat.add_0_r.
      + split; [by rewrite length_addBlockToAtomic|].
        rewrite at_addBlockToAtomic by (done || lia). rewrite Hat.
        rewrite Real_of_nat_add.
        destruct (decide (point_id (getNeighbor m i j) = t)) as [->|Hne].
        * rewrite decide_True by (split; [lia|done]).
          rewrite coeff_Vec3Block, Real_of_nat_1 by done. ring.
        * rewrite decide_False by tauto. rewrite Real_of_nat_0. ring. }
  split; [exact Hlen|]. etrans; [exact Hat|].
  unfold neighborsOf, numberOfNeighbors. rewrite firstn_all. unfold acc0. rewrite at_addBlockToAtomic by done.
  rewrite Real_of_nat_add.
  destruct (decide (i = t)) as [->|Hne].
  - rewrite coeff_Vec3Block, Real_of_nat_1 by done. ring.
  - rewrite Real_of_nat_0. ring.
Qed.

(** The accumulator of [matrixFreeLHS]: the block of particle [t] holds
    [x_t] once for every addition made into it. *)
Lemma lhs_accumulator_spec (m : FluidModel) (x : VectorXr) (t c : nat) :
  t < numParticles m → c < 3 →
  at_ (lhs_accumulator m x) (3 * t + c) =
  (Real_of_nat (coupling_count m t) * at_ x (3 * t + c))%Qc.
Proof.
  intros Ht Hc. unfold lhs_accumulator, coupling_count.
  pose (P := λ (n : nat) (a : AtomicRealVec),
    length a = 3 * numParticles m ∧
    at_ a (3 * t + c) =
    (Real_of_nat (sum_list_with (λ i, visits m i t) (seq 0 n))
     * at_ x (3 * t + c))%Qc).
  assert (P (numParticles m)
            (foldl (lhs_accumulate_particle m x)
                   (replicate (3 * numParticles m) 0%Qc)
                   (seq 0 (numParticles m)))) as [_ Hat]; [|done].
  apply foldl_seq_invariant.
  - split; [apply length_replicate|]. rewrite at_replicate. simpl.
    rewrite Real_of_nat_0. ring.
  - intros i a Hi [Hlen Hat]. unfold P.
    destruct (lhs_accumulate_particle_spec m x a i t c) as [Hlen' Hat'];
      [done|lia|].
    split; [lia|]. rewrite Hat', Hat, seq_S, sum_list_with_app. simpl.
    rewrite !Real_of_nat_add, Real_of_nat_0. ring.
Qed.

(** A loop that writes the three entries of block [i] for every [i < n]. *)
Lemma block_writes_spec (g : nat → nat → Real) (result : VectorXr) (n : nat) :
  let body := λ (result : VectorXr) (i : nat),
    foldl (λ result c, <[3 * i + c := g i c]> result) result (seq 0 3) in
  length (foldl body result (seq 0 n)) = length result ∧
  (∀ t c, t < n → c < 3 → 3 * t + c < length result →
          at_ (foldl body result (seq 0 n)) (3 * t + c) = g t c) ∧
  (∀ k, 3 * n ≤ k → at_ (foldl body result (seq 0 n)) k = at_ result k).
Proof.
  intros body.
  apply (foldl_seq_invariant (λ n (r : VectorXr),
    length r = length result ∧
    (∀ t c, t < n → c < 3 → 3 * t + c < length result → at_ r (3 * t + c) = g t c) ∧
    (∀ k, 3 * n ≤ k → at_ r k = at_ result k))).
  - split; [done|]. split; [intros; lia|done].
  - intros i r _ (Hlen & Hin & Hout). unfold body. simpl.
    split; [by rewrite !length_insert|]. split.
    + intros t c Ht Hc Hk. destruct (decide (t = i)) as [->|Hne].
      * destruct c as [|[|[|c]]]; [| | |lia].
        -- rewrite !at_insert_ne by lia. apply at_insert_eq. lia.
        -- rewrite at_insert_ne by lia. apply at_insert_eq.
           rewrite length_insert. lia.
        -- apply at_insert_eq. rewrite !length_insert. lia.
      * rewrite !at_insert_ne by lia. apply Hin; [lia|done..].
    + intros k Hk. rewrite !at_insert_ne by lia. apply Hout. lia.
Qed.

Lemma length_matrixFreeLHS (ts : TimeStepPF) (x result : VectorXr) :
  length (matrixFreeLHS ts x result) = length result.
Proof.
  unfold matrixFreeLHS, lhs_combine_particle. cbv zeta.
  apply (block_writes_spec
           (λ i c, (getTimeStepSize ts * getTimeStepSize ts * getStiffness (m_model ts)
                    * at_ (lhs_accumulator (m_model ts) x) (3 * i + c)
                    + getMass (m_model ts) i * at_ x (3 * i + c))%Qc)).
Qed.

(** The second loop of [matrixFreeLHS] on the block of particle [t]. *)
Lemma matrixFreeLHS_combine (ts : TimeStepPF) (x result : VectorXr) (t c : nat) :
  length result = 3 * numParticles (m_model ts) →
  t < numParticles (m_model ts) → c < 3 →
  at_ (matrixFreeLHS ts x result) (3 * t + c) =
    (getTimeStepSize ts * getTimeStepSize ts * getStiffness (m_model ts)
     * at_ (lhs_accumulator (m_model ts) x) (3 * t + c)
     + getMass (m_model ts) t * at_ x (3 * t + c))%Qc.
Proof.
  intros Hlen Ht Hc.
  unfold matrixFreeLHS, lhs_combine_particle. cbv zeta.
  destruct (block_writes_spec
           (λ i c, (getTimeStepSize ts * getTimeStepSize ts * getStiffness (m_model ts)
                    * at_ (lhs_accumulator (m_model ts) x) (3 * i + c)
                    + getMass (m_model ts) i * at_ x (3 * i + c))%Qc)
           result (numParticles (m_model ts))) as (_ & Hin & _).
  apply Hin; [done..|lia].
Qed.

(** C2.  For every particle [t] and coordinate [c], [matrixFreeLHS] writes
    [h² · stiffness · accumulator[3t+c] + mass[t] · x[3t+c]] into
    [result[3t+c]].  The accumulator entry is [x[3t+c]] added once for the
    visit of [t] itself and once for every neighbour-list entry, of any
    particle, that names the fluid particle [t] (point set 0); entries of
    other point sets are not counted. *)
Theorem matrixFreeLHS_entries (ts : TimeStepPF) (x result : VectorXr) (t c : nat) :
  length result = 3 * numParticles (m_model ts) →
  t < numParticles (m_model ts) → c < 3 →
  at_ (matrixFreeLHS ts x result) (3 * t + c) =
    (getTimeStepSize ts * getTimeStepSize ts * getStiffness (m_model ts)
     * at_ (lhs_accumulator (m_model ts) x) (3 * t + c)
     + getMass (m_model ts) t * at_ x (3 * t + c))%Qc ∧
  at_ (lhs_accumulator (m_model ts) x) (3 * t + c) =
    (Real_of_nat (coupling_count (m_model ts) t) * at_ x (3 * t + c))%Qc.
Proof.
  intros Hlen Ht Hc. split.
  - by apply matrixFreeLHS_combine.
  - by apply lhs_accumulator_spec.
Qed.

(** ** The operator is diagonal *)

Lemma length_operator_diagonal (ts : TimeStepPF) :
  length (operator_diagonal ts) = numVariables ts.
Proof. unfold operator_diagonal. by rewrite length_fmap, length_seq. Qed.

Lemma at_operator_diagonal (ts : TimeStepPF) (k : nat) :
  k < numVariables ts →
  at_ (operator_diagonal ts) k = diagonal_entry ts (k `div` 3).
Proof.
  intros Hk. unfold at_, operator_diagonal.
  rewrite list_lookup_fmap, lookup_seq_lt by done. done.
Qed.

Lemma at_zip_with (f : Real → Real → Real) (a b : VectorXr) (k : nat) :
  k < length a → k < length b →
  at_ (zip_with f a b) k = f (at_ a k) (at_ b k).
Proof.
  intros Ha Hb. unfold at_. rewrite lookup_zip_with.
  destruct (lookup_lt_is_Some_2 a k Ha) as [u ->].
  destruct (lookup_lt_is_Some_2 b k Hb) as [v ->]. done.
Qed.

Lemma at_vscale (k : Real) (a : VectorXr) (j : nat) :
  at_ (vscale k a) j = (k * at_ a j)%Qc.
Proof.
  unfold at_, vscale. rewrite list_lookup_fmap.
  destruct (a !! j); simpl; [done|ring].
Qed.

Lemma length_vscale (k : Real) (a : VectorXr) : length (vscale k a) = length a.
Proof. apply length_fmap. Qed.

Lemma length_vadd (a b : VectorXr) :
  length (vadd a b) = length a `min` length b.
Proof. apply length_zip_with. Qed.

Lemma length_vsub (a b : VectorXr) :
  length (vsub a b) = length a `min` length b.
Proof. apply length_zip_with. Qed.

(** [matrixFreeLHS] multiplies entry by entry with [operator_diagonal]:
    the system matrix is diagonal. *)
Lemma matrixFreeLHS_diagonal (ts : TimeStepPF) (x result : VectorXr) :
  length x = numVariables ts → length result = numVariables ts →
  matrixFreeLHS ts x result = zip_with Qcmult (operator_diagonal ts) x.
Proof.
  intros Hx Hres. apply vector_eq.
  - rewrite length_matrixFreeLHS, length_zip_with, length_operator_diagonal. lia.
  - intros k Hk. rewrite length_matrixFreeLHS in Hk.
    rewrite at_zip_with by (rewrite ?length_operator_diagonal; lia).
    rewrite at_operator_diagonal by lia.
    rewrite (Nat.div_mod_eq k 3) at 1 3.
    assert (k `mod` 3 < 3) as Hc by (apply Nat.mod_upper_bound; lia).
    assert (k `div` 3 < numParticles (m_model ts)) as Ht.
    { apply Nat.Div0.div_lt_upper_bound. unfold numVariables in *. lia. }
    rewrite matrixFreeLHS_combine, lhs_accumulator_spec by done.
    unfold diagonal_entry. ring.
Qed.

(** ** The restart of the residual *)

Lemma length_matrixFreeRHS (ts : TimeStepPF) (result : VectorXr) :
  length (matrixFreeRHS ts result) = length result.
Proof.
  unfold matrixFreeRHS, rhs_combine_particle. cbv zeta.
  apply (block_writes_spec
           (λ i c, (getTimeStepSize ts * getTimeStepSize ts * getStiffness (m_model ts)
                    * at_ (rhs_accumulator ts) (3 * i + c)
                    + getMass (m_model ts) i
                      * coeff (getS (m_simulationData ts) i) c)%Qc)).
Qed.

Lemma at_vadd (a b : VectorXr) (k : nat) :
  k < length a → k < length b → at_ (vadd a b) k = (at_ a k + at_ b k)%Qc.
Proof. apply at_zip_with. Qed.

Lemma at_vsub (a b : VectorXr) (k : nat) :
  k < length a → k < length b → at_ (vsub a b) k = (at_ a k - at_ b k)%Qc.
Proof. apply at_zip_with. Qed.

Lemma at_vmul (a b : VectorXr) (k : nat) :
  k < length a → k < length b →
  at_ (zip_with Qcmult a b) k = (at_ a k * at_ b k)%Qc.
Proof. apply at_zip_with. Qed.

(** Goals about the lengths of solver vectors. *)
Ltac vec_length :=
  repeat rewrite ?length_vadd, ?length_vsub, ?length_vscale, ?length_zip_with,
    ?length_operator_diagonal, ?length_matrixFreeLHS, ?length_matrixFreeRHS,
    ?length_replicate;
  lia.

Lemma operator_diagonal_with_data (ts : TimeStepPF) (d : SimulationDataPF) :
  operator_diagonal (with_data ts d) = operator_diagonal ts.
Proof. done. Qed.

(** The exact residual after [x += alpha * d] is the old one minus
    [alpha * (A d)]: the operator is linear. *)
Lemma residual_update (D b x d : VectorXr) (alpha : Real) :
  length D = length x → length b = length x → length d = length x →
  vsub b (zip_with Qcmult D (vadd x (vscale alpha d))) =
  vsub (vsub b (zip_with Qcmult D x)) (vscale alpha (zip_with Qcmult D d)).
Proof.
  intros HD Hb Hd. apply vector_eq; [vec_length|].
  intros k Hk. assert (k < length x) as Hk' by (revert Hk; vec_length).
  repeat rewrite ?at_vsub, ?at_vadd, ?at_vscale, ?at_vmul by vec_length.
  ring.
Qed.

Lemma residual_exact_diagonal (b : VectorXr) (s : CGVars) :
  residual_exact b s →
  cg_r s = vsub b (zip_with Qcmult (operator_diagonal (cg_ts s)) (cg_x s)).
Proof.
  intros (Hx & Hr & Hd & Hq & Hb & Hres). rewrite Hres at 1.
  unfold calculateNegativeGradient. cbn [fst].
  by rewrite matrixFreeLHS_diagonal.
Qed.

Lemma cg_advance_restart (b : VectorXr) (cg_it : nat) (s : CGVars) :
  residual_exact b s →
  cg_advance b cg_it s = cg_advance_incremental s ∧
  residual_exact b (cg_advance b cg_it s).
Proof.
  intros Hs. pose proof (residual_exact_diagonal b s Hs) as Hres.
  destruct Hs as (Hx & Hr & Hd & Hq & Hb & _). unfold cg_x in *.
  assert (cg_advance b cg_it s = cg_advance_incremental s) as Heq.
  { unfold cg_advance, cg_advance_incremental. cbv zeta.
    case_decide; [|done]. unfold calculateNegativeGradient. cbn [fst].
    assert (∀ r r', r = r' → ∀ ts d q,
              mkCGVars ts r d q (squaredNorm r) (cg_delta_new s) =
              mkCGVars ts r' d q (squaredNorm r') (cg_delta_new s))
      as Hcong by (by intros ?? ->).
    apply Hcong. cbn [getX m_simulationData with_data setX].
    rewrite !matrixFreeLHS_diagonal
      by (unfold numVariables; cbn [m_model with_data];
          fold (numVariables (cg_ts s)); vec_length).
    rewrite operator_diagonal_with_data, Hres.
    apply residual_update; vec_length. }
  split; [done|]. rewrite Heq. unfold residual_exact, cg_advance_incremental.
  cbv zeta. unfold calculateNegativeGradient, cg_x, numVariables in *.
  cbn [cg_ts cg_r cg_d cg_q getX m_simulationData with_data setX m_model fst].
  fold (numVariables (cg_ts s)) in *.
  repeat split; try vec_length.
  rewrite !matrixFreeLHS_diagonal
    by (unfold numVariables; cbn [m_model with_data];
        fold (numVariables (cg_ts s)); vec_length).
  rewrite operator_diagonal_with_data.
  rewrite Hres at 1. symmetry.
  apply residual_update; vec_length.
Qed.

Lemma cg_direction_exact (b : VectorXr) (s : CGVars) :
  residual_exact b s → residual_exact b (cg_direction s).
Proof.
  intros Hs. pose proof (residual_exact_diagonal b s Hs) as Hres.
  destruct Hs as (Hx & Hr & Hd & Hq & Hb & _).
  unfold residual_exact, cg_direction, calculateNegativeGradient, cg_x in *.
  cbv zeta. cbn [cg_ts cg_r cg_d cg_q fst].
  repeat split; try vec_length.
  by rewrite matrixFreeLHS_diagonal.
Qed.

Lemma cg_loop_restart (b : VectorXr) (delta_0 : Real) (n cg_it : nat) (s : CGVars) :
  residual_exact b s →
  cg_loop b delta_0 n cg_it s = cg_loop_incremental delta_0 n cg_it s.
Proof.
  revert cg_it s. induction n as [|n IH]; intros cg_it s Hs; [done|].
  cbn [cg_loop cg_loop_incremental]. cbv zeta.
  destruct (cg_advance_restart b cg_it s Hs) as [Heq Hs'].
  rewrite Heq in Hs' |- *.
  destruct (cg_converged _ _); [done|].
  apply IH. by apply cg_direction_exact.
Qed.

Lemma cg_init_exact (ts : TimeStepPF) :
  length (getX (m_simulationData ts)) = numVariables ts →
  residual_exact (cg_init ts).2 (cg_init ts).1.
Proof.
  intros Hx. unfold cg_init, calculateNegativeGradient. cbv zeta.
  cbn [fst snd]. unfold residual_exact, calculateNegativeGradient, cg_x.
  cbn [cg_ts cg_r cg_d cg_q fst].
  rewrite !matrixFreeLHS_diagonal by vec_length.
  repeat split; vec_length.
Qed.

Lemma cg_trace_exact (ts : TimeStepPF) (k : nat) :
  length (getX (m_simulationData ts)) = numVariables ts →
  residual_exact (cg_init ts).2 (cg_trace (cg_init ts).2 (cg_init ts).1 k).
Proof.
  intros Hx. induction k as [|k IH]; [by apply cg_init_exact|].
  cbn [cg_trace]. apply cg_direction_exact. by apply cg_advance_restart.
Qed.

Lemma cgSolve_run_restart (ts : TimeStepPF) :
  length (getX (m_simulationData ts)) = numVariables ts →
  cgSolve_run ts = cgSolve_run_incremental ts.
Proof.
  intros Hx. unfold cgSolve_run, cgSolve_run_incremental.
  pose proof (cg_init_exact ts Hx) as Hinit.
  destruct (cg_init ts) as [s b]. cbn [fst snd] in Hinit.
  destruct (cg_converged _ _); [done|]. by apply cg_loop_restart.
Qed.

(** C6.  In exact arithmetic the restart is a no-operation.  At the head of
    every iteration [k] of a run of [cgSolve] the residual is the exact one
    for the [b] built once by the initialisation; the iteration as the
    source runs it, with its recomputation of the residual when [k + 1] is a
    multiple of 50, equals the iteration with the incremental update
    [r -= alpha * q]; the residual it leaves is again the exact one; and the
    whole run equals the run that never recomputes. *)
Theorem restart_equals_incremental_update (ts : TimeStepPF) (k : nat) :
  length (getX (m_simulationData ts)) = numVariables ts →
  let b := (cg_init ts).2 in
  let s := cg_trace b (cg_init ts).1 k in
  cg_r s = (calculateNegativeGradient (cg_ts s) (cg_r s) b false).1 ∧
  cg_advance b k s = cg_advance_incremental s ∧
  cg_r (cg_advance_incremental s) =
    (calculateNegativeGradient (cg_ts (cg_advance_incremental s))
       (cg_r s) b false).1 ∧
  cgSolve_run ts = cgSolve_run_incremental ts.
Proof.
  intros Hx b s.
  pose proof (cg_trace_exact ts k Hx) as Hs. fold b in Hs. fold s in Hs.
  destruct (cg_advance_restart b k s Hs) as [Heq Hs'].
  split; [apply Hs|]. split; [done|]. split; [|by apply cgSolve_run_restart].
  rewrite Heq in Hs'. destruct Hs' as (_ & Hr & _ & _ & _ & Hres).
  rewrite Hres at 1. unfold calculateNegativeGradient. cbn [fst].
  destruct Hs as (_ & Hr0 & _).
  rewrite !(matrixFreeLHS_diagonal _ _ (cg_r _)); [done|..];
    unfold cg_advance_incremental, numVariables in *; cbv zeta;
    cbn [cg_ts cg_r getX m_simulationData with_data setX m_model] in *;
    try done.
  all: destruct (cg_advance_restart b k s) as [_ (Hx' & _)];
    [by apply cg_trace_exact|].
  all: rewrite Heq in Hx'; exact Hx'.
Qed.

(** ** The control flow of [cgSolve] *)

Lemma Qc_sqr_nonneg (x : Real) : (0 ≤ x * x)%Qc.
Proof.
  destruct (Qclt_le_dec x 0) as [Hx|Hx].
  - replace (x * x)%Qc with ((- x) * (- x))%Qc by ring.
    apply Qclt_le_weak, Qcopp_le_compat in Hx.
    by apply Qcmult_nonneg_nonneg.
  - by apply Qcmult_nonneg_nonneg.
Qed.

Lemma squaredNorm_nonneg (a : VectorXr) : (0 ≤ squaredNorm a)%Qc.
Proof.
  unfold squaredNorm, dot, vsum. induction a as [|u a IH]; [done|].
  simpl. apply Qcplus_nonneg_nonneg; [apply Qc_sqr_nonneg|done].
Qed.

(** For a squared norm the relative test against itself never holds. *)
Lemma relative_test_self (delta : Real) :
  (0 ≤ delta)%Qc → ¬ (delta < tol_rel * delta)%Qc.
Proof.
  intros Hpos. apply Qcle_not_lt.
  rewrite <- (Qcmult_1_l delta) at 2.
  by apply Qcmult_le_compat_r.
Qed.

Lemma cg_converged_initial (delta : Real) :
  (0 ≤ delta)%Qc →
  cg_converged delta delta = bool_decide (delta < tol_abs)%Qc.
Proof.
  intros Hpos. unfold cg_converged.
  rewrite (bool_decide_eq_false_2 (delta < tol_rel * delta)%Qc)
    by by apply relative_test_self.
  apply orb_false_r.
Qed.

(** The loop of [cgSolve] on the variables [cg_trace b s0 c] of its
    iteration [c]: either some iteration [k] is the first to pass the test,
    or none of the [n] iterations does. *)
Lemma cg_loop_outcome (b : VectorXr) (s0 : CGVars) (n c : nat) :
  let run := cg_loop b (cg_delta_new s0) n c (cg_trace b s0 c) in
  (∃ k, c ≤ k < c + n ∧ (∀ j, c ≤ j < k → cg_test b s0 j = false) ∧
        cg_test b s0 k = true ∧ run = (CONVERGED, cg_after b s0 k, S k)) ∨
  ((∀ j, c ≤ j < c + n → cg_test b s0 j = false) ∧
   run = (MAX_ITER_REACHED, cg_trace b s0 (c + n), c + n)).
Proof.
  revert c. induction n as [|n IH]; intros c run.
  - right. split; [intros; lia|]. unfold run. by rewrite Nat.add_0_r.
  - unfold run. cbn [cg_loop]. cbv zeta. fold (cg_after b s0 c).
    destruct (cg_converged _ _) eqn:Htest.
    + left. exists c. repeat split; [lia..|intros; lia|done].
    + change (cg_direction (cg_after b s0 c)) with (cg_trace b s0 (S c)).
      destruct (IH (S c)) as [(k & Hk & Hbefore & Hk' & Hrun)|[Hnone Hrun]].
      * left. exists k. repeat split; [lia..| |done|done].
        intros j Hj. destruct (decide (j = c)) as [->|]; [done|].
        apply Hbefore. lia.
      * right. rewrite Hrun. replace (S c + n) with (c + S n) by lia.
        split; [|done]. intros j Hj.
        destruct (decide (j = c)) as [->|]; [done|]. apply Hnone. lia.
Qed.

Lemma cgSolve_run_iterations (ts : TimeStepPF) :
  (cgSolve_run ts).2 ≤ numVariables ts.
Proof.
  unfold cgSolve_run. destruct (cg_init ts) as [s0 b].
  destruct (cg_converged _ _); [simpl; lia|].
  destruct (cg_loop_outcome b s0 (numVariables ts) 0)
    as [(k & Hk & _ & _ & Hrun)|[_ Hrun]];
    cbn [cg_trace] in Hrun; rewrite Hrun; simpl; lia.
Qed.

Lemma cg_loop_not_already_solved (b : VectorXr) (delta_0 : Real)
    (n cg_it : nat) (s : CGVars) :
  (cg_loop b delta_0 n cg_it s).1.1 ≠ ALREADY_SOLVED.
Proof.
  revert cg_it s. induction n as [|n IH]; intros cg_it s; [done|].
  cbn [cg_loop]. cbv zeta. destruct (cg_converged _ _); [done|]. apply IH.
Qed.

(** C10.  [cgSolve] returns [ALREADY_SOLVED] exactly when the squared norm
    of the first residual is below the absolute tolerance: [delta_0] is the
    same number as the first [delta_new], so the relative test
    [delta_new < tol_rel * delta_0] cannot hold for it. *)
Theorem already_solved_iff_absolute (ts : TimeStepPF) :
  let r := cg_r (cg_init ts).1 in
  ((cgSolve ts).1 = ALREADY_SOLVED ↔ (squaredNorm r < tol_abs)%Qc) ∧
  ¬ (squaredNorm r < tol_rel * squaredNorm r)%Qc.
Proof.
  intros r. split; [|apply relative_test_self, squaredNorm_nonneg].
  assert (cg_delta_new (cg_init ts).1 = squaredNorm r) as Hdelta.
  { unfold r, cg_init. by destruct (calculateNegativeGradient _ _ _ _). }
  unfold cgSolve, cgSolve_run. subst r.
  destruct (cg_init ts) as [s0 b]. cbn [fst] in *.
  rewrite cg_converged_initial by (rewrite Hdelta; apply squaredNorm_nonneg).
  rewrite Hdelta. case_bool_decide as Habs.
  - done.
  - pose proof (cg_loop_not_already_solved b (squaredNorm (cg_r s0))
                  (numVariables ts) 0 s0) as Hloop.
    destruct (cg_loop _ _ _ _ _) as [[state s] iters]. simpl in *.
    split; [done|]. intros H. by destruct Habs.
Qed.

(** ** The step driver *)

Lemma with_data_same (ts : TimeStepPF) : with_data ts (m_simulationData ts) = ts.
Proof. by destruct ts. Qed.

Lemma with_model_same (ts : TimeStepPF) : with_model ts (m_model ts) = ts.
Proof. by destruct ts. Qed.

Lemma cg_init_ts (ts : TimeStepPF) : cg_ts (cg_init ts).1 = ts.
Proof. unfold cg_init. by destruct (calculateNegativeGradient _ _ _ _). Qed.

(** C9.  With no particle the implicit solve does nothing: the vectors of
    [cgSolve] are empty, its first squared residual is 0 and it returns
    [ALREADY_SOLVED] without an iteration; the outer loop stops after that
    first solve (it runs none when [m_maxIterations] is 0); and
    [prepareSolve], [cgSolve] and [solvePDConstraints] return the object they
    were given, whatever data it holds. *)
Theorem empty_particle_set_is_noop (ts : TimeStepPF) :
  numParticles (m_model ts) = 0 →
  prepareSolve ts = ts ∧
  cg_r (cg_init ts).1 = [] ∧
  cg_delta_new (cg_init ts).1 = 0%Qc ∧
  cgSolve_run ts = (ALREADY_SOLVED, (cg_init ts).1, 0) ∧
  cgSolve ts = (ALREADY_SOLVED, ts) ∧
  updatePositionsAndVelocity ts = ts ∧
  solvePDConstraints_run ts = (ts, 1 `min` m_maxIterations ts) ∧
  solvePDConstraints ts = ts.
Proof.
  intros Hn.
  assert (prepareSolve ts = ts) as Hprep.
  { unfold prepareSolve. rewrite Hn. simpl. apply with_data_same. }
  assert (updatePositionsAndVelocity ts = ts) as Hupd.
  { unfold updatePositionsAndVelocity. rewrite Hn. simpl. apply with_model_same. }
  assert (cg_init ts = (mkCGVars ts [] [] [] 0%Qc max_Real, [])) as Hinit.
  { unfold cg_init, calculateNegativeGradient, matrixFreeLHS, matrixFreeRHS,
      numVariables. rewrite Hn. done. }
  assert (cgSolve_run ts = (ALREADY_SOLVED, (cg_init ts).1, 0)) as Hrun.
  { unfold cgSolve_run. rewrite Hinit. done. }
  assert (cgSolve ts = (ALREADY_SOLVED, ts)) as Hsolve.
  { unfold cgSolve. rewrite Hrun. by rewrite cg_init_ts. }
  assert (solvePDConstraints_run ts = (ts, 1 `min` m_maxIterations ts)) as Hpd.
  { unfold solvePDConstraints_run. rewrite Hprep.
    destruct (m_maxIterations ts) as [|k]; cbn [pd_loop].
    - by rewrite Hupd.
    - rewrite Hsolve. rewrite decide_True by done. by rewrite Hupd. }
  repeat split; try done.
  - by rewrite Hinit.
  - by rewrite Hinit.
  - unfold solvePDConstraints. by rewrite Hpd.
Qed.

(** Projections of updated records. *)
Ltac fields :=
  cbn [m_model m_simulationData getTimeStepSize m_maxIterations
       with_model with_data setPosition setVelocity setOldPosition setS setX
       setNumFluidNeighbors numParticles fluidPosition fluidVelocity
       fluidAcceleration fluidMass getDensity0 getStiffness boundaryPosition
       getBoundaryPsi neighborLists W_zero W gradW oldPositions
       predictedPositions getX fluidNeighborCounts].

Lemma default_insert_eq {A : Type} (d v : A) (l : list A) (i : nat) :
  i < length l → default d (<[i := v]> l !! i) = v.
Proof. intros Hi. by rewrite list_lookup_insert_eq. Qed.

Lemma default_insert_ne {A : Type} (d v : A) (l : list A) (i j : nat) :
  i ≠ j → default d (<[i := v]> l !! j) = default d (l !! j).
Proof. intros Hi. by rewrite list_lookup_insert_ne. Qed.

(** [initialGuessForPositions] after [n] particles: the particles below [n]
    carry their guess, the others are untouched. *)
Lemma initialGuess_loop (ts : TimeStepPF) (n : nat) :
  let m := m_model ts in
  let d := m_simulationData ts in
  let ts' := foldl initialGuess_particle ts (seq 0 n) in
  let m' := m_model ts' in
  let d' := m_simulationData ts' in
  length (fluidPosition m') = length (fluidPosition m) ∧
  length (oldPositions d') = length (oldPositions d) ∧
  length (predictedPositions d') = length (predictedPositions d) ∧
  fluidVelocity m' = fluidVelocity m ∧
  fluidAcceleration m' = fluidAcceleration m ∧
  getTimeStepSize ts' = getTimeStepSize ts ∧
  (∀ i, n ≤ i → getPosition m' 0 i = getPosition m 0 i) ∧
  (∀ i, i < n → i < length (fluidPosition m) →
        i < length (oldPositions d) → i < length (predictedPositions d) →
        getOldPosition d' i = getPosition m 0 i ∧
        getPosition m' 0 i = inertial_guess ts i ∧
        getS d' i = inertial_guess ts i).
Proof.
  cbv zeta. apply (foldl_seq_invariant (λ n ts',
    length (fluidPosition (m_model ts')) = length (fluidPosition (m_model ts)) ∧
    length (oldPositions (m_simulationData ts'))
      = length (oldPositions (m_simulationData ts)) ∧
    length (predictedPositions (m_simulationData ts'))
      = length (predictedPositions (m_simulationData ts)) ∧
    fluidVelocity (m_model ts') = fluidVelocity (m_model ts) ∧
    fluidAcceleration (m_model ts') = fluidAcceleration (m_model ts) ∧
    getTimeStepSize ts' = getTimeStepSize ts ∧
    (∀ i, n ≤ i → getPosition (m_model ts') 0 i = getPosition (m_model ts) 0 i) ∧
    (∀ i, i < n → i < length (fluidPosition (m_model ts)) →
          i < length (oldPositions (m_simulationData ts)) →
          i < length (predictedPositions (m_simulationData ts)) →
          getOldPosition (m_simulationData ts') i = getPosition (m_model ts) 0 i ∧
          getPosition (m_model ts') 0 i = inertial_guess ts i ∧
          getS (m_simulationData ts') i = inertial_guess ts i))).
  - repeat split; try done; intros; lia.
  - intros j ts' _ (Hp & Ho & Hs & Hv & Ha & Hh & Hrest & Hdone).
    unfold initialGuess_particle. cbv zeta.
    fields.
    rewrite !length_insert. repeat split; try done.
    + intros i Hi. unfold getPosition at 1. fields.
      rewrite default_insert_ne by lia. apply Hrest. lia.
    + destruct (decide (i = j)) as [->|Hne].
      * unfold getOldPosition. fields.
        rewrite default_insert_eq by lia. apply Hrest. lia.
      * unfold getOldPosition. fields.
        rewrite default_insert_ne by lia. apply Hdone; [lia|done..].
    + destruct (decide (i = j)) as [->|Hne].
      * unfold getPosition at 1. fields.
        rewrite default_insert_eq by lia.
        unfold inertial_guess, getVelocity, getAcceleration.
        rewrite Hv, Ha, Hh, Hrest by lia. done.
      * unfold getPosition at 1. fields.
        rewrite default_insert_ne by lia. apply Hdone; [lia|done..].
    + destruct (decide (i = j)) as [->|Hne].
      * unfold getS. fields.
        rewrite default_insert_eq by lia.
        unfold inertial_guess, getVelocity, getAcceleration.
        rewrite Hv, Ha, Hh, Hrest by lia. done.
      * unfold getS. fields.
        rewrite default_insert_ne by lia. apply Hdone; [lia|done..].
Qed.

(** [updatePositionsAndVelocity] after [n] particles. *)
Lemma updatePositionsAndVelocity_loop (h : Real) (d : SimulationDataPF)
    (m : FluidModel) (n : nat) :
  let m' := foldl (updatePositionsAndVelocity_particle h d) m (seq 0 n) in
  length (fluidPosition m') = length (fluidPosition m) ∧
  length (fluidVelocity m') = length (fluidVelocity m) ∧
  (∀ i, i < n → i < length (fluidPosition m) → i < length (fluidVelocity m) →
        getPosition m' 0 i = Vec3Block (getX d) i ∧
        getVelocity m' i =
          div3 (sub3 (Vec3Block (getX d) i) (getOldPosition d i)) h).
Proof.
  cbv zeta. apply (foldl_seq_invariant (λ n m',
    length (fluidPosition m') = length (fluidPosition m) ∧
    length (fluidVelocity m') = length (fluidVelocity m) ∧
    (∀ i, i < n → i < length (fluidPosition m) → i < length (fluidVelocity m) →
          getPosition m' 0 i = Vec3Block (getX d) i ∧
          getVelocity m' i =
            div3 (sub3 (Vec3Block (getX d) i) (getOldPosition d i)) h))).
  - repeat split; intros; lia.
  - intros j m' _ (Hp & Hv & Hdone).
    unfold updatePositionsAndVelocity_particle. cbv zeta.
    unfold getPosition, getVelocity.
    fields.
    rewrite !length_insert. repeat split; try done.
    + destruct (decide (i = j)) as [->|Hne].
      * apply default_insert_eq. lia.
      * rewrite default_insert_ne by lia. apply Hdone; [lia|done..].
    + destruct (decide (i = j)) as [->|Hne].
      * rewrite !default_insert_eq by lia. done.
      * rewrite default_insert_ne by lia. apply Hdone; [lia|done..].
Qed.

(** C8.  The prediction stores the position of particle [i] as its old
    position and sets both the model position and the predicted position to
    [position + h * velocity + h² * acceleration]; the update after the solve
    sets the model position to the block of [x] and the velocity to
    [(new position - old position) / h]. *)
Theorem prediction_and_update (ts : TimeStepPF) (i : nat) :
  let m := m_model ts in
  let d := m_simulationData ts in
  let h := getTimeStepSize ts in
  let predicted := initialGuessForPositions ts in
  let updated := updatePositionsAndVelocity ts in
  i < numParticles m →
  length (fluidPosition m) = numParticles m →
  length (fluidVelocity m) = numParticles m →
  length (oldPositions d) = numParticles m →
  length (predictedPositions d) = numParticles m →
  getOldPosition (m_simulationData predicted) i = getPosition m 0 i ∧
  getPosition (m_model predicted) 0 i =
    add3 (add3 (getPosition m 0 i) (scale3 h (getVelocity m i)))
         (scale3 (h * h) (getAcceleration m i)) ∧
  getS (m_simulationData predicted) i = getPosition (m_model predicted) 0 i ∧
  getPosition (m_model updated) 0 i = Vec3Block (getX d) i ∧
  getVelocity (m_model updated) i =
    div3 (sub3 (getPosition (m_model updated) 0 i) (getOldPosition d i)) h.
Proof.
  intros m d h predicted updated Hi Hp Hv Ho Hs.
  destruct (initialGuess_loop ts (numParticles m))
    as (_ & _ & _ & _ & _ & _ & _ & Hguess).
  destruct (Hguess i) as (Hold & Hpos & HS); [fold m d; lia..|].
  destruct (updatePositionsAndVelocity_loop h d m (numParticles m))
    as (_ & _ & Hupd).
  destruct (Hupd i) as [Hx Hvel]; [lia..|].
  unfold predicted, updated, initialGuessForPositions, updatePositionsAndVelocity.
  cbn [m_model with_model]. fold m d h.
  repeat split; [done|done|by rewrite Hpos, HS|done|by rewrite Hx, Hvel].
Qed.

(** ** The momentum-only system *)

Lemma length_setVec3Block (x : VectorXr) (i : nat) (v : Vector3r) :
  length (setVec3Block x i v) = length x.
Proof. unfold setVec3Block. by rewrite !length_insert. Qed.

Lemma Vec3Block_setVec3Block_eq (x : VectorXr) (i : nat) (v : Vector3r) :
  3 * i + 2 < length x → Vec3Block (setVec3Block x i v) i = v.
Proof.
  intros Hi. unfold Vec3Block, setVec3Block. destruct v as [a b c].
  cbn [v0 v1 v2]. f_equal.
  - rewrite !at_insert_ne by lia. apply at_insert_eq. lia.
  - rewrite at_insert_ne by lia. apply at_insert_eq. rewrite length_insert. lia.
  - apply at_insert_eq. rewrite !length_insert. lia.
Qed.

Lemma Vec3Block_setVec3Block_ne (x : VectorXr) (i t : nat) (v : Vector3r) :
  i ≠ t → Vec3Block (setVec3Block x i v) t = Vec3Block x t.
Proof.
  intros Hi. unfold Vec3Block, setVec3Block.
  by rewrite !at_insert_ne by lia.
Qed.

(** [prepareSolve] after [n] particles: their blocks of [x] hold their
    positions; the predicted positions are not touched. *)
Lemma prepareSolve_loop (m : FluidModel) (d : SimulationDataPF) (n : nat) :
  let d' := foldl (prepareSolve_particle m) d (seq 0 n) in
  length (getX d') = length (getX d) ∧
  predictedPositions d' = predictedPositions d ∧
  oldPositions d' = oldPositions d ∧
  (∀ i, i < n → 3 * i + 2 < length (getX d) →
        Vec3Block (getX d') i = getPosition m 0 i).
Proof.
  cbv zeta. apply (foldl_seq_invariant (λ n d',
    length (getX d') = length (getX d) ∧
    predictedPositions d' = predictedPositions d ∧
    oldPositions d' = oldPositions d ∧
    (∀ i, i < n → 3 * i + 2 < length (getX d) →
          Vec3Block (getX d') i = getPosition m 0 i))).
  - repeat split; intros; lia.
  - intros j d' _ (Hlen & HS & Hold & Hdone).
    unfold prepareSolve_particle. cbv zeta. fields.
    rewrite length_setVec3Block. repeat split; try done.
    intros i Hi Hlt. destruct (decide (i = j)) as [->|Hne].
    + apply Vec3Block_setVec3Block_eq. lia.
    + rewrite Vec3Block_setVec3Block_ne by done. apply Hdone; [lia|done].
Qed.

Lemma matrixFreeRHS_combine (ts : TimeStepPF) (result : VectorXr) (t c : nat) :
  length result = 3 * numParticles (m_model ts) →
  t < numParticles (m_model ts) → c < 3 →
  at_ (matrixFreeRHS ts result) (3 * t + c) =
    (getTimeStepSize ts * getTimeStepSize ts * getStiffness (m_model ts)
     * at_ (rhs_accumulator ts) (3 * t + c)
     + getMass (m_model ts) t * coeff (getS (m_simulationData ts) t) c)%Qc.
Proof.
  intros Hlen Ht Hc.
  unfold matrixFreeRHS, rhs_combine_particle. cbv zeta.
  destruct (block_writes_spec
           (λ i c, (getTimeStepSize ts * getTimeStepSize ts * getStiffness (m_model ts)
                    * at_ (rhs_accumulator ts) (3 * i + c)
                    + getMass (m_model ts) i
                      * coeff (getS (m_simulationData ts) i) c)%Qc)
           result (numParticles (m_model ts))) as (_ & Hin & _).
  apply Hin; [done..|lia].
Qed.

Lemma squaredNorm_replicate_0 (n : nat) : squaredNorm (replicate n 0%Qc) = 0%Qc.
Proof.
  unfold squaredNorm, dot, vsum. induction n as [|n IH]; [done|].
  simpl. rewrite IH. ring.
Qed.

Lemma squaredNorm_zero (r : VectorXr) :
  (∀ k, k < length r → at_ r k = 0%Qc) → squaredNorm r = 0%Qc.
Proof.
  intros Hr. rewrite <- (squaredNorm_replicate_0 (length r)). f_equal.
  apply vector_eq; [by rewrite length_replicate|].
  intros k Hk. by rewrite Hr, at_replicate.
Qed.

(** Every index below [3 n] is [3 t + c] for a particle [t < n] and a
    coordinate [c < 3]. *)
Lemma block_index (k n : nat) :
  k < 3 * n → ∃ t c, t < n ∧ c < 3 ∧ k = 3 * t + c.
Proof.
  intros Hk. exists (k `div` 3), (k `mod` 3).
  pose proof (Nat.div_mod_eq k 3). pose proof (Nat.mod_upper_bound k 3).
  repeat split; [|lia..]. apply Nat.Div0.div_lt_upper_bound. lia.
Qed.

(** C1.  With stiffness 0 the operator is [mass[t] * x] and the right-hand
    side is [mass[t] * predictedPosition[t]]; when the solve starts from
    positions that are the predicted ones, as the prediction leaves them,
    the first residual is exactly zero, the first [cgSolve] returns
    [ALREADY_SOLVED] without touching the object, and every block of [x] is
    the predicted position. *)
Theorem momentum_only_already_solved (ts : TimeStepPF) :
  let m := m_model ts in
  let prepared := prepareSolve ts in
  let x := getX (m_simulationData prepared) in
  let zeros := replicate (numVariables prepared) 0%Qc in
  getStiffness m = 0%Qc →
  length (getX (m_simulationData ts)) = 3 * numParticles m →
  (∀ i, i < numParticles m → getPosition m 0 i = getS (m_simulationData ts) i) →
  cgSolve prepared = (ALREADY_SOLVED, prepared) ∧
  squaredNorm (cg_r (cg_init prepared).1) = 0%Qc ∧
  (∀ t, t < numParticles m →
        Vec3Block (getX (m_simulationData (cgSolve prepared).2)) t
        = getS (m_simulationData prepared) t) ∧
  (∀ t c, t < numParticles m → c < 3 →
          at_ (matrixFreeLHS prepared x zeros) (3 * t + c)
          = (getMass m t * at_ x (3 * t + c))%Qc ∧
          at_ (matrixFreeRHS prepared zeros) (3 * t + c)
          = (getMass m t * coeff (getS (m_simulationData prepared) t) c)%Qc).
Proof.
  intros m prepared x zeros Hk Hx Hpos.
  destruct (prepareSolve_loop m (m_simulationData ts) (numParticles m))
    as (Hlen & HS & _ & Hblocks).
  assert (m_model prepared = m) as Hm by done.
  assert (∀ t, t < numParticles m →
            Vec3Block x t = getS (m_simulationData prepared) t) as Hxs.
  { intros t Ht. unfold x, prepared, prepareSolve. fields. fold m.
    rewrite Hblocks by lia. rewrite Hpos by done. unfold getS. by rewrite HS. }
  assert (length zeros = 3 * numParticles (m_model prepared)) as Hz.
  { unfold zeros. by rewrite length_replicate. }
  assert (∀ t c, t < numParticles m → c < 3 →
            at_ (matrixFreeLHS prepared x zeros) (3 * t + c)
            = (getMass m t * at_ x (3 * t + c))%Qc ∧
            at_ (matrixFreeRHS prepared zeros) (3 * t + c)
            = (getMass m t * coeff (getS (m_simulationData prepared) t) c)%Qc)
    as Hdegenerate.
  { intros t c Ht Hc.
    rewrite matrixFreeLHS_combine, matrixFreeRHS_combine by (by rewrite ?Hm).
    rewrite Hm. fold m. rewrite Hk. split; ring. }
  assert (squaredNorm (cg_r (cg_init prepared).1) = 0%Qc) as Hzero.
  { unfold cg_init, calculateNegativeGradient. cbv zeta. cbn [fst cg_r].
    fold zeros. fold x. apply squaredNorm_zero. intros k Hlt.
    rewrite length_vsub, length_matrixFreeRHS, length_matrixFreeLHS, Hz, Hm
      in Hlt.
    destruct (block_index k (numParticles m)) as (t & c & Ht & Hc & ->); [lia|].
    rewrite at_vsub
      by (rewrite ?length_matrixFreeRHS, ?length_matrixFreeLHS, Hz, Hm; lia).
    destruct (Hdegenerate t c Ht Hc) as [-> ->].
    rewrite <- Hxs, coeff_Vec3Block by done. ring. }
  assert (cgSolve prepared = (ALREADY_SOLVED, prepared)) as Hsolve.
  { unfold cgSolve, cgSolve_run.
    pose proof (cg_init_ts prepared) as Hts.
    assert (cg_delta_new (cg_init prepared).1 = 0%Qc) as Hdelta.
    { rewrite <- Hzero. unfold cg_init.
      by destruct (calculateNegativeGradient _ _ _ _). }
    destruct (cg_init prepared) as [s0 b]. cbn [fst] in *.
    rewrite Hdelta. replace (cg_converged 0 0) with true by done.
    by rewrite Hts. }
  split; [done|]. split; [done|]. split; [|done].
  intros t Ht. rewrite Hsolve. by apply Hxs.
Qed.

(** ** The local projection *)

Lemma vsum_app (a b : VectorXr) : vsum (a ++ b) = (vsum a + vsum b)%Qc.
Proof.
  unfold vsum. induction a as [|u a IH]; simpl; [ring|]. rewrite IH. ring.
Qed.

(** A loop that adds [f j] for every [j < n]. *)
Lemma sum_loop (f : nat → Real) (start : Real) (n : nat) :
  foldl (λ acc j, (acc + f j)%Qc) start (seq 0 n)
  = (start + vsum (f <$> seq 0 n))%Qc.
Proof.
  apply (foldl_seq_invariant (λ n acc, acc = (start + vsum (f <$> seq 0 n))%Qc)).
  - simpl. unfold vsum. simpl. ring.
  - intros j acc _ ->. rewrite seq_S, fmap_app, vsum_app. simpl.
    unfold vsum. simpl. ring.
Qed.

Lemma calculateC_density (m : FluidModel) (i : nat) (p : list Vector3r) :
  calculateC m i p =
  let C := (density m i p * (1 / getDensity0 m) - 1)%Qc in
  if decide (C < 0)%Qc then 0%Qc else C.
Proof.
  unfold calculateC. cbv zeta.
  rewrite (foldl_seq_ext _
             (λ acc j, (acc + neighbor_weight m i j
                              * W m (sub3 (local_at p 0) (local_at p (j + 1))))%Qc)).
  - by rewrite sum_loop.
  - intros j acc _. unfold neighbor_weight. cbv zeta. by case_decide.
Qed.

(** C3.  The constraint value of particle [i] on the local positions [p] is
    [max (density / restDensity - 1) 0], with the density the own mass times
    the kernel at distance zero plus, for every neighbour, its mass (fluid)
    or its psi (boundary) times the kernel at its displacement; it is 0
    whenever [density / restDensity - 1] is negative. *)
Theorem calculateC_clamped (m : FluidModel) (i : nat) (p : list Vector3r) :
  calculateC m i p = Qcmax (density m i p / getDensity0 m - 1) 0 ∧
  (0 ≤ calculateC m i p)%Qc ∧
  ((density m i p / getDensity0 m - 1 < 0)%Qc → calculateC m i p = 0%Qc).
Proof.
  rewrite calculateC_density. cbv zeta.
  replace (density m i p * (1 / getDensity0 m))%Qc
    with (density m i p / getDensity0 m)%Qc by (unfold Qcdiv; ring).
  unfold Qcmax. split; [|split].
  - reflexivity.
  - destruct (decide _) as [HC|HC]; [done|]. by apply Qcnot_lt_le.
  - intros HC. by rewrite decide_True.
Qed.



Lemma local_at_insert_eq (p : list Vector3r) (k : nat) (v : Vector3r) :
  k < length p → local_at (<[k := v]> p) k = v.
Proof. apply default_insert_eq. Qed.

Lemma local_at_insert_ne (p : list Vector3r) (k k' : nat) (v : Vector3r) :
  k ≠ k' → local_at (<[k := v]> p) k' = local_at p k'.
Proof. apply default_insert_ne. Qed.

Lemma move_local_spec (ts : TimeStepPF) (i : nat) (cdg : Real) (g : VectorXr)
    (p : list Vector3r) (k : nat) :
  length p = numberOfNeighbors (m_model ts) i + 1 →
  k ≤ numberOfNeighbors (m_model ts) i →
  local_at (move_local ts i cdg g p) k = moved_position ts i cdg g p k.
Proof.
  intros Hlen Hk. unfold move_local. cbv zeta.
  set (p0 := <[0 := _]> p).
  pose (P := λ (n : nat) (q : list Vector3r),
    length q = length p ∧
    ∀ k, k < length p →
         local_at q k = if decide (k ≤ n) then moved_position ts i cdg g p k
                        else local_at p k).
  assert (P (numberOfNeighbors (m_model ts) i)
            (foldl (λ p j,
                      let id := getNeighbor (m_model ts) i j in
                      if decide (point_set_id id = 0)
                      then
                        let nfn := getNumFluidNeighbors (m_simulationData ts)
                                     (point_id id) in
                        <[j + 1 := add3 (local_at p (j + 1))
                                     (scale3 (cdg * Real_of_nat nfn)
                                             (Vec3Block g (j + 1)))]> p
                      else p)
                   p0 (seq 0 (numberOfNeighbors (m_model ts) i)))) as [_ HP].
  { apply foldl_seq_invariant.
    - split; [unfold p0; by rewrite length_insert|]. intros k' Hk'.
      destruct k' as [|k']; unfold p0.
      + rewrite decide_True by lia. rewrite local_at_insert_eq by lia. done.
      + rewrite decide_False by lia. by rewrite local_at_insert_ne.
    - intros j q Hj [Hq Hat]. unfold P. cbv zeta.
      destruct (decide (point_set_id (getNeighbor (m_model ts) i j) = 0))
        as [Hf|Hb].
      + split; [by rewrite length_insert|]. intros k' Hk'.
        destruct (decide (k' = j + 1)) as [->|Hne].
        * rewrite local_at_insert_eq by lia. rewrite decide_True by lia.
          rewrite Hat by lia. rewrite decide_False by lia.
          replace (j + 1) with (S j) by lia. cbn [moved_position]. cbv zeta.
          by rewrite decide_True.
        * rewrite local_at_insert_ne by done. rewrite Hat by done.
          repeat case_decide; try done; lia.
      + split; [done|]. intros k' Hk'. rewrite Hat by done.
        destruct (decide (k' = S j)) as [->|Hne].
        * rewrite decide_False by lia. rewrite decide_True by lia.
          cbn [moved_position]. cbv zeta. by rewrite decide_False.
        * repeat case_decide; try done; lia. }
  etrans; [apply HP; lia|]. by rewrite decide_True.
Qed.

Lemma rhs_accumulate_local_spec (m : FluidModel) (i : nat) (p : list Vector3r)
    (acc : AtomicRealVec) (t c : nat) :
  c < 3 → 3 * t + c < length acc →
  at_ (rhs_accumulate_local m i p acc) (3 * t + c)
  = (at_ acc (3 * t + c) + local_contribution m i p t c)%Qc.
Proof.
  intros Hc Hk. unfold rhs_accumulate_local, local_contribution. cbv zeta.
  set (acc0 := addBlockToAtomic acc i (local_at p 0)).
  set (f := λ j, if decide (point_set_id (getNeighbor m i j) = 0
                            ∧ point_id (getNeighbor m i j) = t)
                 then coeff (local_at p (j + 1)) c else 0%Qc).
  pose (P := λ (n : nat) (a : AtomicRealVec),
    length a = length acc ∧
    at_ a (3 * t + c) = (at_ acc0 (3 * t + c) + vsum (f <$> seq 0 n))%Qc).
  assert (P (numberOfNeighbors m i)
            (foldl (λ accumulator j,
                      let id := getNeighbor m i j in
                      if decide (point_set_id id ≠ 0) then accumulator
                      else addBlockToAtomic accumulator (point_id id)
                             (local_at p (j + 1)))
                   acc0 (seq 0 (numberOfNeighbors m i)))) as [_ HP].
  { apply foldl_seq_invariant.
    - split; [apply length_addBlockToAtomic|]. simpl. unfold vsum. simpl. ring.
    - intros j a Hj [Hlen Hat]. unfold P. cbv zeta.
      assert (vsum (f <$> seq 0 (S j)) = (vsum (f <$> seq 0 j) + f j)%Qc) as ->.
      { rewrite seq_S, fmap_app, vsum_app. simpl. unfold vsum. simpl. ring. }
      unfold f in *.
      destruct (decide (point_set_id (getNeighbor m i j) ≠ 0)) as [Hb|Hf].
      + split; [done|]. rewrite decide_False by tauto. rewrite Hat. ring.
      + split; [by rewrite length_addBlockToAtomic|].
        rewrite at_addBlockToAtomic by (done || lia). rewrite Hat.
        destruct (decide (point_id (getNeighbor m i j) = t)) as [Ht|Hne].
        * rewrite decide_True by (split; [lia|done]). ring.
        * rewrite decide_False by tauto. ring. }
  etrans; [exact HP|]. unfold acc0.
  rewrite at_addBlockToAtomic by done. ring.
Qed.

Lemma projection_loop_pass (ts : TimeStepPF) (i fuel : nat) (s : Projection) :
  let m := m_model ts in
  let p := proj_p s in
  let C := proj_C s in
  let it := proj_it s in
  let g := calculateNablaC m i p in
  let dg := squaredNorm g in
  let cdg := (- C / (dg + regularization))%Qc in
  let moved := move_local ts i cdg g p in
  projection_loop ts i (S fuel) s =
    if decide (Qcabs C ≤ C_goal)%Qc then s
    else if decide (max_steps ≤ it) then mkProjection p C (it + 1) (proj_steps s)
    else if decide (dg = 0%Qc) then mkProjection p C (it + 1) (proj_steps s + 1)
    else projection_loop ts i fuel
           (mkProjection moved
              (if decide (it + 2 < max_steps) then calculateC m i moved else C)
              (it + 1) (proj_steps s + 1)).
Proof.
  cbv zeta. cbn [projection_loop]. cbv zeta.
  destruct (decide (C_goal < Qcabs (proj_C s))%Qc) as [Hgt|Hle].
  - rewrite (decide_False (P := (Qcabs (proj_C s) ≤ C_goal)%Qc))
      by by apply Qclt_not_le.
    destruct (decide (proj_it s < max_steps)) as [Hit|Hit].
    + rewrite (decide_False (P := max_steps ≤ proj_it s)) by lia.
      case_decide; [done|].
      replace (proj_it s + 1 + 1) with (proj_it s + 2) by lia. done.
    + by rewrite (decide_True (P := max_steps ≤ proj_it s)) by lia.
  - by rewrite (decide_True (P := (Qcabs (proj_C s) ≤ C_goal)%Qc))
      by by apply Qcnot_lt_le.
Qed.

(** ** The residual norm and the energy along the iterations *)

Lemma dot_comm (a b : VectorXr) : dot a b = dot b a.
Proof.
  unfold dot. revert b. induction a as [|u a IH]; intros [|v b]; try done.
  unfold vsum in *. simpl. rewrite IH. ring.
Qed.

Lemma dot_vscale_l (k : Real) (a b : VectorXr) :
  dot (vscale k a) b = (k * dot a b)%Qc.
Proof.
  unfold dot, vscale, vsum. revert b.
  induction a as [|u a IH]; intros [|v b]; simpl; try ring.
  rewrite IH. ring.
Qed.



(** The diagonal operator is symmetric. *)
Lemma dot_diagonal_sym (D a b : VectorXr) :
  dot a (zip_with Qcmult D b) = dot b (zip_with Qcmult D a).
Proof.
  unfold dot, vsum. revert a b.
  induction D as [|w D IH]; intros [|u a] [|v b]; simpl; try done.
  rewrite IH. ring.
Qed.

Lemma diagonal_vadd_vscale (D x d : VectorXr) (alpha : Real) :
  length D = length x → length d = length x →
  zip_with Qcmult D (vadd x (vscale alpha d))
  = vadd (zip_with Qcmult D x) (vscale alpha (zip_with Qcmult D d)).
Proof.
  intros HD Hd. apply vector_eq; [vec_length|].
  intros k Hk. assert (k < length x) as Hk' by (revert Hk; vec_length).
  repeat rewrite ?at_vsub, ?at_vadd, ?at_vscale, ?at_vmul by vec_length.
  ring.
Qed.

Lemma Qc_sum_nonneg_zero (a b : Real) :
  (0 ≤ a)%Qc → (0 ≤ b)%Qc → (a + b)%Qc = 0%Qc → a = 0%Qc ∧ b = 0%Qc.
Proof.
  intros Ha Hb Hab.
  assert (a = (- b)%Qc) as Ha' by (rewrite <- (Qcplus_0_l (- b)), <- Hab; ring).
  assert (b = 0%Qc) as ->.
  { apply Qcle_antisym; [|done]. apply Qcopp_le_compat in Ha.
    rewrite Ha' in Ha. by rewrite Qcopp_involutive in Ha. }
  split; [|done]. rewrite Ha'. ring.
Qed.

Lemma weighted_norm_nonneg (D d : VectorXr) :
  Forall (λ w, 0 < w)%Qc D → (0 ≤ dot d (zip_with Qcmult D d))%Qc.
Proof.
  unfold dot, vsum. intros HD. revert d.
  induction HD as [|w D Hw HD IH]; intros [|u d]; simpl; try done.
  apply Qcplus_nonneg_nonneg; [|apply IH].
  replace (u * (w * u))%Qc with (w * (u * u))%Qc by ring.
  apply Qcmult_nonneg_nonneg; [by apply Qclt_le_weak|apply Qc_sqr_nonneg].
Qed.



Lemma dot_vscale_r (k : Real) (a b : VectorXr) :
  dot a (vscale k b) = (k * dot a b)%Qc.
Proof. by rewrite dot_comm, dot_vscale_l, dot_comm. Qed.


Lemma Real_of_nat_nonneg (n : nat) : (0 ≤ Real_of_nat n)%Qc.
Proof.
  unfold Real_of_nat. rewrite <- Z2Qc_inj_0.
  apply (proj1 (Z2Qc_inj_le 0 (Z.of_nat n))). lia.
Qed.

Lemma operator_diagonal_positive (ts : TimeStepPF) :
  positive_system ts → Forall (λ w, 0 < w)%Qc (operator_diagonal ts).
Proof.
  intros [Hmass Hk]. unfold operator_diagonal.
  apply Forall_fmap, Forall_seq. intros k [_ Hlt]. cbv beta.
  unfold compose, diagonal_entry. cbv zeta.
  apply Qcplus_nonneg_pos.
  - apply Qcmult_nonneg_nonneg; [|apply Real_of_nat_nonneg].
    apply Qcmult_nonneg_nonneg; [apply Qc_sqr_nonneg|done].
  - apply Hmass. apply Nat.Div0.div_lt_upper_bound.
    unfold numVariables in Hlt. lia.
Qed.


Lemma not_converged_positive (delta delta_0 : Real) :
  cg_converged delta delta_0 = false → (0 < delta)%Qc.
Proof.
  unfold cg_converged. intros [Habs _]%orb_false_elim.
  apply bool_decide_eq_false_1, Qcnot_lt_le in Habs.
  by apply Qclt_le_trans with tol_abs.
Qed.



Lemma same_system_diagonal (ts ts' : TimeStepPF) :
  same_system ts ts' →
  operator_diagonal ts' = operator_diagonal ts ∧
  numVariables ts' = numVariables ts ∧
  (positive_system ts → positive_system ts').
Proof.
  intros [Hm Hh].
  unfold operator_diagonal, diagonal_entry, numVariables, positive_system.
  by rewrite Hm, Hh.
Qed.




(** ** The statements on the concrete configuration *)

(** Closed equations and comparisons between rationals. *)
Ltac compute_Qc :=
  lazymatch goal with
  | |- @eq Qc _ _ => apply Qc_is_canon; vm_compute; reflexivity
  | |- Qclt _ _ => vm_compute; reflexivity
  | |- Qcle _ _ => vm_compute; discriminate
  | |- _ => vm_compute; reflexivity
  end.

(** The operator on the second particle of the configuration: the entry of
    [x] is counted twice, once for the particle and once as the neighbour of
    the first one. *)
Lemma matrixFreeLHS_entries_example :
  let ts := prepareSolve example_step in
  let x := getX (m_simulationData ts) in
  let result := replicate 6 0%Qc in
  length result = 3 * numParticles (m_model ts) ∧
  coupling_count (m_model ts) 1 = 2 ∧
  at_ (matrixFreeLHS ts x result) (3 * 1 + 0)
  = (getTimeStepSize ts * getTimeStepSize ts * getStiffness (m_model ts)
     * at_ (lhs_accumulator (m_model ts) x) (3 * 1 + 0)
     + getMass (m_model ts) 1 * at_ x (3 * 1 + 0))%Qc ∧
  at_ (lhs_accumulator (m_model ts) x) (3 * 1 + 0)
  = (Real_of_nat (coupling_count (m_model ts) 1) * at_ x (3 * 1 + 0))%Qc.
Proof.
  intros ts x result.
  split; [reflexivity|]. split; [reflexivity|].
  apply (matrixFreeLHS_entries ts x result 1 0); [reflexivity|simpl; lia|lia].
Defined.

(** With stiffness 0 the first solve on the configuration is
    [ALREADY_SOLVED]. *)
Lemma momentum_only_example :
  let ts := example_momentum_only in
  getStiffness (m_model ts) = 0%Qc ∧
  cgSolve (prepareSolve ts) = (ALREADY_SOLVED, prepareSolve ts) ∧
  squaredNorm (cg_r (cg_init (prepareSolve ts)).1) = 0%Qc.
Proof.
  intros ts. split; [reflexivity|].
  destruct (momentum_only_already_solved ts) as (Hsolve & Hzero & _).
  - reflexivity.
  - reflexivity.
  - intros i Hi. destruct i as [|[|i]]; [reflexivity|reflexivity|].
    simpl in Hi. lia.
  - split; [exact Hsolve|exact Hzero].
Defined.

(** The object without particles. *)
Lemma empty_particle_set_example :
  numParticles (m_model example_empty) = 0 ∧
  cgSolve example_empty = (ALREADY_SOLVED, example_empty) ∧
  solvePDConstraints_run example_empty = (example_empty, 1) ∧
  solvePDConstraints example_empty = example_empty.
Proof.
  split; [reflexivity|].
  destruct (empty_particle_set_is_noop example_empty)
    as (_ & _ & _ & _ & Hsolve & _ & Hrun & Hpd); [reflexivity|].
  split; [exact Hsolve|]. split; [exact Hrun|exact Hpd].
Defined.

(** The prediction and the update of the second particle of the moving
    configuration. *)
Lemma prediction_and_update_example :
  let ts := example_moving in
  1 < numParticles (m_model ts) ∧
  getOldPosition (m_simulationData (initialGuessForPositions ts)) 1
  = getPosition (m_model ts) 0 1 ∧
  getPosition (m_model (initialGuessForPositions ts)) 0 1
  = add3 (add3 (getPosition (m_model ts) 0 1)
                (scale3 (getTimeStepSize ts) (getVelocity (m_model ts) 1)))
         (scale3 (getTimeStepSize ts * getTimeStepSize ts)
                 (getAcceleration (m_model ts) 1)) ∧
  getS (m_simulationData (initialGuessForPositions ts)) 1
  = getPosition (m_model (initialGuessForPositions ts)) 0 1 ∧
  getPosition (m_model (updatePositionsAndVelocity ts)) 0 1
  = Vec3Block (getX (m_simulationData ts)) 1 ∧
  getVelocity (m_model (updatePositionsAndVelocity ts)) 1
  = div3 (sub3 (getPosition (m_model (updatePositionsAndVelocity ts)) 0 1)
               (getOldPosition (m_simulationData ts) 1))
         (getTimeStepSize ts).
Proof.
  intros ts. split; [simpl; lia|].
  apply (prediction_and_update ts 1); [simpl; lia|reflexivity..].
Defined.

(** The first iteration of the solve on the configuration. *)
Lemma restart_example :
  let ts := prepareSolve example_step in
  let b := (cg_init ts).2 in
  let s := cg_trace b (cg_init ts).1 0 in
  length (getX (m_simulationData ts)) = numVariables ts ∧
  cg_advance b 0 s = cg_advance_incremental s ∧
  cgSolve_run ts = cgSolve_run_incremental ts.
Proof.
  intros ts b s. split; [vm_compute; reflexivity|].
  destruct (restart_equals_incremental_update ts 0) as (_ & Hstep & _ & Hrun).
  - vm_compute. reflexivity.
  - split; [exact Hstep|exact Hrun].
Defined.

Lemma example_positive : positive_system (prepareSolve example_step).
Proof.
  split.
  - intros i Hi. destruct i as [|[|i]]; [compute_Qc|compute_Qc|].
    simpl in Hi. lia.
  - compute_Qc.
Defined.

Lemma example_iterations : (cgSolve_run (prepareSolve example_step)).2 = 2.
Proof. vm_compute. reflexivity. Defined.



(** * Further properties of the code *)

(** ** The operator as a linear map *)

(** The operator is linear, and what the result buffer held before the call
    does not matter: [A (x + alpha y) = A x + alpha (A y)] for any three
    buffers of the right length. *)
Theorem matrixFreeLHS_linear (ts : TimeStepPF) (x y r1 r2 r3 : VectorXr)
    (alpha : Real) :
  length x = numVariables ts → length y = numVariables ts →
  length r1 = numVariables ts → length r2 = numVariables ts →
  length r3 = numVariables ts →
  matrixFreeLHS ts (vadd x (vscale alpha y)) r1
  = vadd (matrixFreeLHS ts x r2) (vscale alpha (matrixFreeLHS ts y r3)) ∧
  matrixFreeLHS ts x r1 = matrixFreeLHS ts x r2.
Proof.
  intros Hx Hy H1 H2 H3.
  rewrite !matrixFreeLHS_diagonal by vec_length. split; [|done].
  apply diagonal_vadd_vscale; vec_length.
Qed.

Lemma weighted_norm_zero_vector (D d : VectorXr) :
  Forall (λ w, 0 < w)%Qc D → length D = length d →
  dot d (zip_with Qcmult D d) = 0%Qc → d = replicate (length d) 0%Qc.
Proof.
  intros HD. revert d.
  induction HD as [|w D Hw HD IH]; intros [|u d] Hlen Hzero;
    simpl in Hlen; try lia; [done|].
  unfold dot, vsum in *. simpl in *.
  replace (u * (w * u))%Qc with (w * (u * u))%Qc in Hzero by ring.
  apply Qc_sum_nonneg_zero in Hzero as [Hu Hrest].
  - rewrite <- (IH d) by (lia || done).
    apply Qcmult_integral in Hu as [->|Huu]; [by destruct (Qclt_not_eq _ _ Hw)|].
    apply Qcmult_integral in Huu. by assert (u = 0%Qc) as -> by tauto.
  - apply Qcmult_nonneg_nonneg; [by apply Qclt_le_weak|apply Qc_sqr_nonneg].
  - by apply (weighted_norm_nonneg D d).
Qed.

(** The operator is symmetric, and for positive masses and a stiffness that
    is not negative it is positive definite: [x · (A x)] is never negative
    and is 0 only for [x = 0]. *)
Theorem matrixFreeLHS_symmetric_positive (ts : TimeStepPF)
    (x y r1 r2 : VectorXr) :
  length x = numVariables ts → length y = numVariables ts →
  length r1 = numVariables ts → length r2 = numVariables ts →
  positive_system ts →
  dot x (matrixFreeLHS ts y r1) = dot y (matrixFreeLHS ts x r2) ∧
  (0 ≤ dot x (matrixFreeLHS ts x r1))%Qc ∧
  (dot x (matrixFreeLHS ts x r1) = 0%Qc → x = replicate (numVariables ts) 0%Qc).
Proof.
  intros Hx Hy H1 H2 Hsys.
  rewrite !matrixFreeLHS_diagonal by vec_length.
  pose proof (operator_diagonal_positive ts Hsys) as HD.
  split; [apply dot_diagonal_sym|]. split; [by apply weighted_norm_nonneg|].
  intros Hzero. rewrite <- Hx.
  apply (weighted_norm_zero_vector (operator_diagonal ts)); [done|vec_length|done].
Qed.

(** ** The accumulation does not depend on the schedule *)

Lemma foldl_permutation {A B : Type} (f : A → B → A) (l1 l2 : list B) :
  (∀ a i j, f (f a i) j = f (f a j) i) →
  l1 ≡ₚ l2 → ∀ a, foldl f a l1 = foldl f a l2.
Proof.
  intros Hcomm Hperm.
  induction Hperm as [|i l1 l2 _ IH|i j l|l1 l2 l3 _ IH1 _ IH2]; intros a;
    simpl; [done|apply IH|by rewrite Hcomm|by rewrite IH1].
Qed.

Lemma length_lhs_accumulate_particle (m : FluidModel) (x : VectorXr)
    (acc : AtomicRealVec) (i : nat) :
  length (lhs_accumulate_particle m x acc i) = length acc.
Proof.
  unfold lhs_accumulate_particle. cbv zeta.
  apply (foldl_seq_invariant (λ _ (a : AtomicRealVec), length a = length acc)).
  - apply length_addBlockToAtomic.
  - intros j a _ Ha. case_decide; [done|]. by rewrite length_addBlockToAtomic.
Qed.

Lemma length_rhs_accumulate_local (m : FluidModel) (i : nat)
    (p : list Vector3r) (acc : AtomicRealVec) :
  length (rhs_accumulate_local m i p acc) = length acc.
Proof.
  unfold rhs_accumulate_local. cbv zeta.
  apply (foldl_seq_invariant (λ _ (a : AtomicRealVec), length a = length acc)).
  - apply length_addBlockToAtomic.
  - intros j a _ Ha. case_decide; [done|]. by rewrite length_addBlockToAtomic.
Qed.

(** Every index of a vector is [3 t + c] with [c < 3]. *)
Lemma index_block (k : nat) : ∃ t c, c < 3 ∧ k = 3 * t + c.
Proof.
  exists (k `div` 3), (k `mod` 3).
  pose proof (Nat.div_mod_eq k 3). pose proof (Nat.mod_upper_bound k 3). lia.
Qed.

Lemma lhs_accumulate_particle_comm (m : FluidModel) (x : VectorXr)
    (acc : AtomicRealVec) (i j : nat) :
  lhs_accumulate_particle m x (lhs_accumulate_particle m x acc i) j
  = lhs_accumulate_particle m x (lhs_accumulate_particle m x acc j) i.
Proof.
  apply vector_eq; [by rewrite !length_lhs_accumulate_particle|].
  intros k Hk. rewrite !length_lhs_accumulate_particle in Hk.
  destruct (index_block k) as (t & c & Hc & ->).
  destruct (lhs_accumulate_particle_spec m x
              (lhs_accumulate_particle m x acc i) j t c) as [_ ->];
    [done|by rewrite length_lhs_accumulate_particle|].
  destruct (lhs_accumulate_particle_spec m x
              (lhs_accumulate_particle m x acc j) i t c) as [_ ->];
    [done|by rewrite length_lhs_accumulate_particle|].
  destruct (lhs_accumulate_particle_spec m x acc i t c) as [_ ->]; [done..|].
  destruct (lhs_accumulate_particle_spec m x acc j t c) as [_ ->]; [done..|].
  ring.
Qed.

Lemma rhs_accumulate_particle_comm (ts : TimeStepPF) (acc : AtomicRealVec)
    (i j : nat) :
  rhs_accumulate_particle ts (rhs_accumulate_particle ts acc i) j
  = rhs_accumulate_particle ts (rhs_accumulate_particle ts acc j) i.
Proof.
  unfold rhs_accumulate_particle.
  apply vector_eq; [by rewrite !length_rhs_accumulate_local|].
  intros k Hk. rewrite !length_rhs_accumulate_local in Hk.
  destruct (index_block k) as (t & c & Hc & ->).
  rewrite !rhs_accumulate_local_spec
    by (done || by rewrite ?length_rhs_accumulate_local).
  ring.
Qed.

(** In exact arithmetic the accumulators of [matrixFreeLHS] and
    [matrixFreeRHS] are the same whatever the order in which the parallel
    loop visits the particles. *)
Theorem accumulators_order_independent (ts : TimeStepPF) (x : VectorXr)
    (order : list nat) :
  order ≡ₚ seq 0 (numParticles (m_model ts)) →
  lhs_accumulator_in_order (m_model ts) x order = lhs_accumulator (m_model ts) x ∧
  rhs_accumulator_in_order ts order = rhs_accumulator ts.
Proof.
  intros Hperm. split.
  - apply foldl_permutation; [|done].
    intros a i j. apply lhs_accumulate_particle_comm.
  - apply foldl_permutation; [|done].
    intros a i j. apply rhs_accumulate_particle_comm.
Qed.

(** ** The last stage of the step *)

Lemma addAccellerationToVelocity_loop (h : Real) (m : FluidModel) (n : nat) :
  let m' := foldl (addAccellerationToVelocity_particle h) m (seq 0 n) in
  fluidPosition m' = fluidPosition m ∧
  fluidAcceleration m' = fluidAcceleration m ∧
  length (fluidVelocity m') = length (fluidVelocity m) ∧
  (∀ i, n ≤ i → getVelocity m' i = getVelocity m i) ∧
  (∀ i, i < n → i < length (fluidVelocity m) →
        getVelocity m' i
        = add3 (getVelocity m i) (scale3 h (getAcceleration m i))).
Proof.
  cbv zeta. apply (foldl_seq_invariant (λ n m',
    fluidPosition m' = fluidPosition m ∧
    fluidAcceleration m' = fluidAcceleration m ∧
    length (fluidVelocity m') = length (fluidVelocity m) ∧
    (∀ i, n ≤ i → getVelocity m' i = getVelocity m i) ∧
    (∀ i, i < n → i < length (fluidVelocity m) →
          getVelocity m' i
          = add3 (getVelocity m i) (scale3 h (getAcceleration m i))))).
  - repeat split; try done; intros; lia.
  - intros j m' _ (Hp & Ha & Hlen & Hrest & Hdone).
    unfold addAccellerationToVelocity_particle. fields.
    rewrite length_insert. repeat split; try done.
    + intros i Hi. unfold getVelocity at 1. fields.
      rewrite default_insert_ne by lia. apply Hrest. lia.
    + intros i Hi Hlt. destruct (decide (i = j)) as [->|Hne].
      * unfold getVelocity at 1. fields. rewrite default_insert_eq by lia.
        unfold getAcceleration. rewrite Ha, Hrest by lia. done.
      * unfold getVelocity at 1. fields.
        rewrite default_insert_ne by lia. apply Hdone; [lia|done].
Qed.

(** [addAccellerationToVelocity] adds [h * acceleration] to the velocity of
    every particle, once, and touches neither positions nor accelerations
    nor the solver data. *)
Theorem addAccellerationToVelocity_spec (ts : TimeStepPF) (i : nat) :
  let m := m_model ts in
  let after := addAccellerationToVelocity ts in
  i < numParticles m →
  length (fluidVelocity m) = numParticles m →
  getVelocity (m_model after) i
  = add3 (getVelocity m i) (scale3 (getTimeStepSize ts) (getAcceleration m i)) ∧
  fluidPosition (m_model after) = fluidPosition m ∧
  fluidAcceleration (m_model after) = fluidAcceleration m ∧
  m_simulationData after = m_simulationData ts.
Proof.
  intros m after Hi Hlen.
  destruct (addAccellerationToVelocity_loop (getTimeStepSize ts) m (numParticles m))
    as (Hp & Ha & _ & _ & Hv).
  unfold after, addAccellerationToVelocity. cbv zeta. fields. fold m.
  split; [apply Hv; lia|]. by split; [|split].
Qed.

(** ** The right-hand side *)

Lemma rhs_accumulator_spec (ts : TimeStepPF) (t c : nat) :
  t < numParticles (m_model ts) → c < 3 →
  at_ (rhs_accumulator ts) (3 * t + c)
  = vsum ((λ i, local_contribution (m_model ts) i (proj_p (project ts i)) t c)
          <$> seq 0 (numParticles (m_model ts))).
Proof.
  intros Ht Hc. unfold rhs_accumulator.
  set (f := λ i, local_contribution (m_model ts) i (proj_p (project ts i)) t c).
  pose (P := λ (n : nat) (a : AtomicRealVec),
    length a = 3 * numParticles (m_model ts) ∧
    at_ a (3 * t + c) = vsum (f <$> seq 0 n)).
  assert (P (numParticles (m_model ts))
            (foldl (rhs_accumulate_particle ts)
                   (replicate (3 * numParticles (m_model ts)) 0%Qc)
                   (seq 0 (numParticles (m_model ts))))) as [_ HP]; [|done].
  apply foldl_seq_invariant.
  - split; [apply length_replicate|]. by rewrite at_replicate.
  - intros i a _ [Hlen Hat]. unfold P, rhs_accumulate_particle.
    split; [by rewrite length_rhs_accumulate_local|].
    rewrite rhs_accumulate_local_spec by (done || lia).
    assert (vsum (f <$> seq 0 (S i)) = (vsum (f <$> seq 0 i) + f i)%Qc) as ->.
    { rewrite seq_S, fmap_app, vsum_app. simpl. unfold vsum. simpl. ring. }
    by rewrite Hat.
Qed.

(** Every entry of the right-hand side is [h² · stiffness] times the sum,
    over all particles, of what the projected local positions of that
    particle contribute to the entry, plus the mass times the predicted
    position; the previous contents of the result buffer do not matter. *)
Theorem matrixFreeRHS_entries (ts : TimeStepPF) (r1 r2 : VectorXr) (t c : nat) :
  let m := m_model ts in
  length r1 = 3 * numParticles m → length r2 = 3 * numParticles m →
  t < numParticles m → c < 3 →
  at_ (matrixFreeRHS ts r1) (3 * t + c)
  = (getTimeStepSize ts * getTimeStepSize ts * getStiffness m
     * vsum ((λ i, local_contribution m i (proj_p (project ts i)) t c)
             <$> seq 0 (numParticles m))
     + getMass m t * coeff (getS (m_simulationData ts) t) c)%Qc ∧
  matrixFreeRHS ts r1 = matrixFreeRHS ts r2.
Proof.
  intros m H1 H2 Ht Hc. split.
  - rewrite matrixFreeRHS_combine, rhs_accumulator_spec by done. done.
  - apply vector_eq; [rewrite !length_matrixFreeRHS; lia|].
    intros k Hk. rewrite length_matrixFreeRHS in Hk.
    destruct (block_index k (numParticles m)) as (t' & c' & Ht' & Hc' & ->);
      [lia|].
    by rewrite !matrixFreeRHS_combine.
Qed.

(** ** The local positions and the gradient of the constraint *)

Lemma gather_local_spec (m : FluidModel) (x : VectorXr) (i : nat) :
  let p := gather_local m x i in
  length p = numberOfNeighbors m i + 1 ∧
  local_at p 0 = Vec3Block x i ∧
  (∀ j, j < numberOfNeighbors m i →
        local_at p (j + 1) =
          let id := getNeighbor m i j in
          if decide (point_set_id id = 0) then Vec3Block x (point_id id)
          else getPosition m (point_set_id id) (point_id id)).
Proof.
  cbv zeta. unfold gather_local. cbv zeta.
  set (nn := numberOfNeighbors m i).
  apply (foldl_seq_invariant (λ n (p : list Vector3r),
    length p = nn + 1 ∧
    local_at p 0 = Vec3Block x i ∧
    (∀ j, j < n →
          local_at p (j + 1) =
            if decide (point_set_id (getNeighbor m i j) = 0)
            then Vec3Block x (point_id (getNeighbor m i j))
            else getPosition m (point_set_id (getNeighbor m i j))
                   (point_id (getNeighbor m i j))))).
  - rewrite length_insert, length_replicate. split; [done|].
    split; [|intros; lia].
    apply local_at_insert_eq. rewrite length_replicate. lia.
  - intros n p Hn (Hlen & H0 & Hdone).
    assert (∀ v, length (<[n + 1 := v]> p) = nn + 1
                 ∧ local_at (<[n + 1 := v]> p) 0 = Vec3Block x i) as Hframe.
    { intros v. rewrite length_insert. split; [done|].
      by rewrite local_at_insert_ne by lia. }
    destruct (decide (point_set_id (getNeighbor m i n) = 0)) as [Hf|Hb].
    + destruct (Hframe (Vec3Block x (point_id (getNeighbor m i n)))) as [? ?].
      split; [done|]. split; [done|]. intros j Hj.
      destruct (decide (j = n)) as [->|Hne].
      * rewrite local_at_insert_eq by lia. by rewrite decide_True.
      * rewrite local_at_insert_ne by lia. apply Hdone. lia.
    + destruct (Hframe (getPosition m (point_set_id (getNeighbor m i n))
                          (point_id (getNeighbor m i n)))) as [? ?].
      split; [done|]. split; [done|]. intros j Hj.
      destruct (decide (j = n)) as [->|Hne].
      * rewrite local_at_insert_eq by lia. by rewrite decide_False.
      * rewrite local_at_insert_ne by lia. apply Hdone. lia.
Qed.

Lemma add3_cancel (b v s : Vector3r) :
  add3 (sub3 b v) (add3 s (add3 v Vector3r_zero)) = add3 b s.
Proof.
  destruct b, v, s. unfold add3, sub3, Vector3r_zero. cbn [v0 v1 v2].
  f_equal; ring.
Qed.

Lemma sum3_app (l1 l2 : list Vector3r) :
  sum3 (l1 ++ l2) = add3 (sum3 l1) (sum3 l2).
Proof.
  unfold sum3. induction l1 as [|v l1 IH]; simpl.
  - destruct (foldr add3 Vector3r_zero l2). unfold add3, Vector3r_zero.
    cbn [v0 v1 v2]. f_equal; ring.
  - rewrite IH. destruct v, (foldr add3 Vector3r_zero l1),
      (foldr add3 Vector3r_zero l2). unfold add3. cbn [v0 v1 v2].
    f_equal; ring.
Qed.

Lemma calculateNablaC_loop (m : FluidModel) (i : nat) (p : list Vector3r) :
  length p = numberOfNeighbors m i + 1 →
  let g := calculateNablaC m i p in
  length g = 3 * (numberOfNeighbors m i + 1) ∧
  (∀ j, j < numberOfNeighbors m i →
        Vec3Block g (j + 1)
        = scale3 (- (1 / getDensity0 m) * neighbor_weight m i j)
                 (gradW m (sub3 (local_at p 0) (local_at p (j + 1))))) ∧
  sum3 (Vec3Block g <$> seq 0 (numberOfNeighbors m i + 1)) = Vector3r_zero.
Proof.
  intros Hp. cbv zeta. unfold calculateNablaC. cbv zeta. rewrite Hp.
  set (nn := numberOfNeighbors m i).
  apply (foldl_seq_invariant (λ n (g : VectorXr),
    length g = 3 * (nn + 1) ∧
    (∀ j, j < n →
          Vec3Block g (j + 1)
          = scale3 (- (1 / getDensity0 m) * neighbor_weight m i j)
                   (gradW m (sub3 (local_at p 0) (local_at p (j + 1))))) ∧
    sum3 (Vec3Block g <$> seq 0 (n + 1)) = Vector3r_zero)).
  - rewrite length_setVec3Block, length_replicate. split; [done|].
    split; [intros; lia|]. simpl.
    rewrite Vec3Block_setVec3Block_eq by (rewrite length_replicate; lia).
    unfold add3, Vector3r_zero. cbn [v0 v1 v2]. f_equal; ring.
  - intros n g Hn (Hlen & Hdone & Hsum).
    set (v := scale3 _ _).
    assert (v = scale3 (- (1 / getDensity0 m) * neighbor_weight m i n)
                       (gradW m (sub3 (local_at p 0) (local_at p (n + 1)))))
      as Hv.
    { unfold v, neighbor_weight. cbv zeta. by case_decide. }
    set (g1 := setVec3Block g (n + 1) v).
    assert (Vec3Block g1 (n + 1) = v) as Hnew
      by (apply Vec3Block_setVec3Block_eq; lia).
    assert (Vec3Block g1 0 = Vec3Block g 0) as Hzero
      by (apply Vec3Block_setVec3Block_ne; lia).
    rewrite Hnew, Hzero, !length_setVec3Block.
    split; [unfold g1; by rewrite length_setVec3Block|]. split.
    + intros j Hj. rewrite Vec3Block_setVec3Block_ne by lia.
      destruct (decide (j = n)) as [->|Hne]; [by rewrite Hnew|].
      unfold g1. rewrite Vec3Block_setVec3Block_ne by lia. apply Hdone. lia.
    + replace (S n + 1) with (S (n + 1)) by lia.
      rewrite seq_S, fmap_app. replace (n + 1) with (S n) in * by lia.
      rewrite <- cons_seq, !fmap_cons in *. simpl.
      rewrite Vec3Block_setVec3Block_eq
        by (unfold g1; rewrite length_setVec3Block; lia).
      assert (Vec3Block (setVec3Block g1 0 (sub3 (Vec3Block g 0) v))
                <$> seq 1 n = Vec3Block g <$> seq 1 n) as ->.
      { apply list_fmap_ext. intros k j [-> Hlt]%lookup_seq.
        rewrite Vec3Block_setVec3Block_ne by lia.
        unfold g1. apply Vec3Block_setVec3Block_ne. lia. }
      rewrite Vec3Block_setVec3Block_ne by lia. rewrite Hnew.
      change (foldr add3 Vector3r_zero ?l) with (sum3 l) in *.
      rewrite sum3_app. simpl. rewrite add3_cancel. exact Hsum.
Qed.

(** The gradient of the constraint of particle [i] has one block per local
    position; the block of neighbour [j] is
    [- (weight of j / rest density) * gradW (p[0] - p[j + 1])], and the
    blocks add up to zero: the own block is minus the sum of the others. *)
Theorem calculateNablaC_blocks (m : FluidModel) (i : nat) (p : list Vector3r)
    (j : nat) :
  let g := calculateNablaC m i p in
  length p = numberOfNeighbors m i + 1 →
  j < numberOfNeighbors m i →
  length g = 3 * length p ∧
  Vec3Block g (j + 1)
  = scale3 (- (1 / getDensity0 m) * neighbor_weight m i j)
           (gradW m (sub3 (local_at p 0) (local_at p (j + 1)))) ∧
  sum3 (Vec3Block g <$> seq 0 (length p)) = Vector3r_zero.
Proof.
  intros g Hp Hj.
  destruct (calculateNablaC_loop m i p Hp) as (Hlen & Hblock & Hsum).
  rewrite Hp. split; [done|]. split; [by apply Hblock|done].
Qed.

(** ** What the projection leaves alone *)

Lemma length_move_local (ts : TimeStepPF) (i : nat) (cdg : Real) (g : VectorXr)
    (p : list Vector3r) :
  length (move_local ts i cdg g p) = length p.
Proof.
  unfold move_local. cbv zeta.
  apply (foldl_seq_invariant (λ _ (q : list Vector3r), length q = length p)).
  - by rewrite length_insert.
  - intros j q _ Hq. case_decide; [|done]. by rewrite length_insert.
Qed.

Lemma projection_loop_preserves (ts : TimeStepPF) (i fuel : nat) (s : Projection) :
  length (proj_p s) = numberOfNeighbors (m_model ts) i + 1 →
  length (proj_p (projection_loop ts i fuel s))
    = numberOfNeighbors (m_model ts) i + 1 ∧
  (∀ j, j < numberOfNeighbors (m_model ts) i →
        point_set_id (getNeighbor (m_model ts) i j) ≠ 0 →
        local_at (proj_p (projection_loop ts i fuel s)) (j + 1)
        = local_at (proj_p s) (j + 1)).
Proof.
  revert s. induction fuel as [|fuel IH]; intros s Hlen; [done|].
  rewrite projection_loop_pass. cbv zeta.
  repeat case_decide; try done.
  all: match goal with
       | |- context [projection_loop _ _ _ ?s'] =>
           destruct (IH s') as [Hlen' Hfixed];
             [cbn [proj_p]; by rewrite length_move_local|]
       end.
  all: split; [done|]; intros j Hj Hb; rewrite Hfixed by done; cbn [proj_p];
    rewrite move_local_spec by (done || lia);
    replace (j + 1) with (S j) by lia; cbn [moved_position]; cbv zeta;
    by rewrite decide_False.
Qed.

(** The projection keeps one local position per neighbour and never moves
    the position of a boundary neighbour: at the end it is still the
    position that the model gives for that boundary particle. *)
Theorem projection_keeps_boundary (ts : TimeStepPF) (i j : nat) :
  let m := m_model ts in
  let id := getNeighbor m i j in
  j < numberOfNeighbors m i →
  point_set_id id ≠ 0 →
  length (proj_p (project ts i)) = numberOfNeighbors m i + 1 ∧
  local_at (proj_p (project ts i)) (j + 1)
  = getPosition m (point_set_id id) (point_id id).
Proof.
  intros m id Hj Hb.
  destruct (gather_local_spec m (getX (m_simulationData ts)) i)
    as (Hlen & _ & Hgather).
  destruct (projection_loop_preserves ts i (S max_steps) (projection_start ts i))
    as [Hlen' Hfixed]; [done|].
  split; [exact Hlen'|].
  unfold project. etrans; [apply (Hfixed j Hj Hb)|].
  unfold projection_start. cbn [proj_p]. rewrite Hgather by done.
  cbv zeta. by rewrite decide_False.
Qed.

Lemma squaredNorm_zeros3 : squaredNorm [0%Qc; 0%Qc; 0%Qc] = 0%Qc.
Proof. unfold squaredNorm, dot, vsum. simpl. ring. Qed.

(** A particle without neighbours is never moved by its projection: its
    density is its own mass times the kernel at distance zero, the gradient
    of its constraint is zero, and the loop leaves after at most one
    execution of its body with the local position it started from. *)
Theorem isolated_particle_projection (ts : TimeStepPF) (i : nat) :
  let m := m_model ts in
  let x := getX (m_simulationData ts) in
  numberOfNeighbors m i = 0 →
  proj_p (project ts i) = [Vec3Block x i] ∧
  proj_steps (project ts i) ≤ 1 ∧
  proj_C (project ts i) = Qcmax (getMass m i * W_zero m / getDensity0 m - 1) 0 ∧
  calculateNablaC m i [Vec3Block x i] = [0%Qc; 0%Qc; 0%Qc].
Proof.
  intros m x Hnn.
  assert (gather_local m x i = [Vec3Block x i]) as Hgather.
  { unfold gather_local. cbv zeta. by rewrite Hnn. }
  assert (calculateNablaC m i [Vec3Block x i] = [0%Qc; 0%Qc; 0%Qc]) as Hg.
  { unfold calculateNablaC. cbv zeta. by rewrite Hnn. }
  assert (calculateC m i [Vec3Block x i]
          = Qcmax (getMass m i * W_zero m / getDensity0 m - 1) 0) as HC.
  { rewrite calculateC_density. cbv zeta. unfold density. rewrite Hnn.
    unfold Qcmax, vsum. cbn [seq fmap list_fmap foldr].
    replace ((getMass m i * W_zero m + 0) * (1 / getDensity0 m))%Qc
      with (getMass m i * W_zero m / getDensity0 m)%Qc
      by (unfold Qcdiv; ring).
    done. }
  unfold project. cbv zeta. fold m x. rewrite Hgather, HC.
  rewrite projection_loop_pass. cbv zeta. cbn [proj_p proj_C proj_it proj_steps].
  fold m. rewrite Hg, squaredNorm_zeros3.
  destruct (decide (_ ≤ C_goal)%Qc) as [Hsmall|Hlarge].
  { cbn [proj_p proj_steps proj_C]. split; [done|]. split; [lia|]. by split. }
  rewrite decide_False by (unfold max_steps; lia).
  rewrite decide_True by done. cbn [proj_p proj_steps proj_C].
  split; [done|]. split; [lia|]. by split.
Qed.

(** ** A fluid that is not compressed *)

Lemma project_uncompressed (ts : TimeStepPF) (i : nat) :
  uncompressed ts → i < numParticles (m_model ts) →
  project ts i = projection_start ts i.
Proof.
  intros Hu Hi. unfold project, projection_start. cbv zeta.
  rewrite projection_loop_pass. cbv zeta. cbn [proj_C].
  rewrite decide_True; [done|]. by apply Hu.
Qed.

(** Accumulating the local positions as they were gathered is the
    accumulation of [matrixFreeLHS]. *)
Lemma rhs_accumulate_unprojected (m : FluidModel) (x : VectorXr) (i : nat)
    (acc : AtomicRealVec) :
  rhs_accumulate_local m i (gather_local m x i) acc
  = lhs_accumulate_particle m x acc i.
Proof.
  destruct (gather_local_spec m x i) as (_ & H0 & Hj).
  unfold rhs_accumulate_local, lhs_accumulate_particle. cbv zeta.
  rewrite H0. apply foldl_seq_ext. intros j a Hlt.
  case_decide; [done|]. rewrite Hj by done. cbv zeta.
  rewrite decide_True by lia. done.
Qed.

Lemma rhs_accumulator_uncompressed (ts : TimeStepPF) :
  uncompressed ts →
  rhs_accumulator ts
  = lhs_accumulator (m_model ts) (getX (m_simulationData ts)).
Proof.
  intros Hu. unfold rhs_accumulator, lhs_accumulator.
  apply foldl_seq_ext. intros i a Hi. unfold rhs_accumulate_particle.
  rewrite project_uncompressed by done. unfold projection_start.
  cbn [proj_p]. apply rhs_accumulate_unprojected.
Qed.

(** The first residual of [cgSolve], entry by entry. *)
Lemma cg_init_residual (ts : TimeStepPF) (t c : nat) :
  let m := m_model ts in
  let d := m_simulationData ts in
  let h := getTimeStepSize ts in
  t < numParticles m → c < 3 →
  at_ (cg_r (cg_init ts).1) (3 * t + c)
  = (h * h * getStiffness m
     * (at_ (rhs_accumulator ts) (3 * t + c)
        - at_ (lhs_accumulator m (getX d)) (3 * t + c))
     + getMass m t * (coeff (getS d t) c - at_ (getX d) (3 * t + c)))%Qc.
Proof.
  intros m d h Ht Hc.
  unfold cg_init, calculateNegativeGradient. cbv zeta. cbn [fst cg_r].
  assert (length (replicate (numVariables ts) 0%Qc) = 3 * numParticles m)
    as Hz by apply length_replicate.
  rewrite at_vsub
    by (rewrite ?length_matrixFreeRHS, ?length_matrixFreeLHS, Hz; lia).
  rewrite matrixFreeLHS_combine, matrixFreeRHS_combine by done.
  fold m d h. ring.
Qed.

Lemma length_cg_init_residual (ts : TimeStepPF) :
  length (cg_r (cg_init ts).1) = numVariables ts.
Proof.
  unfold cg_init, calculateNegativeGradient. cbv zeta. cbn [fst cg_r].
  vec_length.
Qed.

(** A first residual that vanishes ends [cgSolve] at once. *)
Lemma cgSolve_zero_residual (ts : TimeStepPF) :
  squaredNorm (cg_r (cg_init ts).1) = 0%Qc → cgSolve ts = (ALREADY_SOLVED, ts).
Proof.
  intros Hzero. unfold cgSolve, cgSolve_run.
  pose proof (cg_init_ts ts) as Hts.
  assert (cg_delta_new (cg_init ts).1 = 0%Qc) as Hdelta.
  { rewrite <- Hzero. unfold cg_init.
    by destruct (calculateNegativeGradient _ _ _ _). }
  destruct (cg_init ts) as [s0 b]. cbn [fst] in *.
  rewrite Hdelta. replace (cg_converged 0 0) with true by done.
  by rewrite Hts.
Qed.

(** When no particle is compressed the projection moves nothing: the
    accumulator of the right-hand side is the one of the operator, the first
    residual of [cgSolve] is the inertial term [mass · (S - x)] alone,
    whatever the stiffness, and a solve that starts at the predicted
    positions returns [ALREADY_SOLVED] without touching the object. *)
Theorem uncompressed_residual_is_inertial (ts : TimeStepPF) (t c : nat) :
  let m := m_model ts in
  let d := m_simulationData ts in
  uncompressed ts →
  t < numParticles m → c < 3 →
  rhs_accumulator ts = lhs_accumulator m (getX d) ∧
  at_ (cg_r (cg_init ts).1) (3 * t + c)
  = (getMass m t * (coeff (getS d t) c - at_ (getX d) (3 * t + c)))%Qc ∧
  ((∀ i, i < numParticles m → Vec3Block (getX d) i = getS d i) →
   cgSolve ts = (ALREADY_SOLVED, ts)).
Proof.
  intros m d Hu Ht Hc.
  pose proof (rhs_accumulator_uncompressed ts Hu) as Hacc. fold m d in Hacc.
  assert (∀ t c, t < numParticles m → c < 3 →
            at_ (cg_r (cg_init ts).1) (3 * t + c)
            = (getMass m t
               * (coeff (getS d t) c - at_ (getX d) (3 * t + c)))%Qc) as Hr.
  { intros t' c' Ht' Hc'. rewrite cg_init_residual by done. fold m d.
    rewrite Hacc. ring. }
  split; [exact Hacc|]. split; [by apply Hr|].
  intros Hx. apply cgSolve_zero_residual, squaredNorm_zero.
  intros k Hk. rewrite length_cg_init_residual in Hk.
  destruct (block_index k (numParticles m)) as (t' & c' & Ht' & Hc' & ->);
    [exact Hk|].
  rewrite Hr by done. rewrite <- Hx, coeff_Vec3Block by done. ring.
Qed.

(** ** What [cgSolve] changes and what it reaches *)

Lemma same_except_X_refl (ts : TimeStepPF) : same_except_X ts ts.
Proof. by repeat split. Qed.

Lemma same_except_X_trans (ts1 ts2 ts3 : TimeStepPF) :
  same_except_X ts1 ts2 → same_except_X ts2 ts3 → same_except_X ts1 ts3.
Proof.
  intros (H1 & H2 & H3 & H4 & H5 & H6) (G1 & G2 & G3 & G4 & G5 & G6).
  unfold same_except_X. by rewrite G1, G2, G3, G4, G5, G6.
Qed.

Lemma same_except_X_system (ts ts' : TimeStepPF) :
  same_except_X ts ts' → same_system ts ts'.
Proof. intros (H1 & H2 & _). by split. Qed.

Lemma cg_loop_frame (b : VectorXr) (delta_0 : Real) (n cg_it : nat) (s : CGVars) :
  same_except_X (cg_ts s) (cg_ts (cg_loop b delta_0 n cg_it s).1.2).
Proof.
  revert cg_it s. induction n as [|n IH]; intros cg_it s;
    [apply same_except_X_refl|].
  cbn [cg_loop]. cbv zeta.
  assert (same_except_X (cg_ts s) (cg_ts (cg_advance b cg_it s))) as Hstep.
  { unfold cg_advance. cbv zeta. cbn [cg_ts]. by repeat split. }
  destruct (cg_converged _ _); [exact Hstep|].
  apply (same_except_X_trans _ _ _ Hstep).
  apply (IH (S cg_it) (cg_direction (cg_advance b cg_it s))).
Qed.

(** The residual that the loop holds at its exit is the exact one, and when
    the loop returns [CONVERGED] it passes the convergence test. *)
Lemma cg_loop_exit (b : VectorXr) (delta_0 : Real) (n cg_it : nat) (s : CGVars) :
  residual_exact b s →
  let run := cg_loop b delta_0 n cg_it s in
  residual_exact b run.1.2 ∧
  (run.1.1 = CONVERGED →
   cg_converged (squaredNorm (cg_r run.1.2)) delta_0 = true).
Proof.
  revert cg_it s. induction n as [|n IH]; intros cg_it s Hs; cbv zeta.
  { by split. }
  cbn [cg_loop]. cbv zeta.
  destruct (cg_advance_restart b cg_it s Hs) as [_ Hs'].
  assert (cg_delta_new (cg_advance b cg_it s)
          = squaredNorm (cg_r (cg_advance b cg_it s))) as Hdelta
    by (unfold cg_advance; cbv zeta; by cbn [cg_delta_new cg_r]).
  destruct (cg_converged (cg_delta_new (cg_advance b cg_it s)) delta_0)
    eqn:Htest.
  - cbn [fst snd]. split; [done|]. intros _. by rewrite <- Hdelta.
  - apply (IH (S cg_it)). by apply cg_direction_exact.
Qed.

Lemma cg_converged_spec (delta delta_0 : Real) :
  cg_converged delta delta_0 = true ↔
  (delta < tol_abs)%Qc ∨ (delta < tol_rel * delta_0)%Qc.
Proof.
  unfold cg_converged. rewrite orb_true_iff, !bool_decide_eq_true. done.
Qed.

(** The exact residual of the variables of the solver is the residual of
    the system of the object that [cgSolve] was called on. *)
Lemma residual_exact_true (ts : TimeStepPF) (b : VectorXr) (s : CGVars) :
  same_except_X ts (cg_ts s) → residual_exact b s →
  length (cg_x s) = numVariables ts ∧ cg_r s = true_residual ts b (cg_x s).
Proof.
  intros Hsame Hs. pose proof (residual_exact_diagonal b s Hs) as Hr.
  destruct (same_system_diagonal ts (cg_ts s)) as (HD & Hn & _);
    [by apply same_except_X_system|].
  destruct Hs as (Hx & _). rewrite Hn in Hx. split; [done|].
  unfold true_residual. rewrite matrixFreeLHS_diagonal by vec_length.
  by rewrite <- HD.
Qed.

Lemma cgSolve_changes_only_X (ts : TimeStepPF) :
  same_except_X ts (cgSolve ts).2 ∧
  (length (getX (m_simulationData ts)) = numVariables ts →
   length (getX (m_simulationData (cgSolve ts).2)) = numVariables ts).
Proof.
  unfold cgSolve, cgSolve_run.
  pose proof (cg_init_ts ts) as Hts. pose proof (cg_init_exact ts) as Hexact.
  destruct (cg_init ts) as [s0 b]. cbn [fst snd] in *.
  destruct (cg_converged _ _).
  - cbn [snd]. rewrite Hts. split; [apply same_except_X_refl|done].
  - pose proof (cg_loop_frame b (cg_delta_new s0) (numVariables ts) 0 s0)
      as Hframe.
    pose proof (cg_loop_exit b (cg_delta_new s0) (numVariables ts) 0 s0)
      as Hexit.
    destruct (cg_loop _ _ _ _ _) as [[state s] it]. cbn [fst snd] in *.
    rewrite Hts in Hframe. split; [done|]. intros Hx.
    destruct (Hexit (Hexact Hx)) as [Hs _].
    by destruct (residual_exact_true ts b s Hframe Hs) as [Hlen _].
Qed.

(** [cgSolve] changes nothing but the unknown [x]: the model, the step
    size, the bound on the outer iterations, the old and the predicted
    positions and the fluid-neighbour counts are those it was called with,
    and [x] keeps its length. *)
Theorem cgSolve_frame (ts : TimeStepPF) :
  same_except_X ts (cgSolve ts).2 ∧
  (length (getX (m_simulationData ts)) = numVariables ts →
   length (getX (m_simulationData (cgSolve ts).2)) = numVariables ts).
Proof. apply cgSolve_changes_only_X. Qed.

(** Whenever [cgSolve] does not return [MAX_ITER_REACHED], the [x] it leaves
    passes the convergence test with its true residual: the squared norm of
    [b - A x], with [b] the right-hand side computed at entry, is below the
    absolute tolerance or below the relative tolerance times the squared norm
    of the first residual. *)
Theorem cgSolve_reaches_tolerance (ts : TimeStepPF) :
  let zeros := replicate (numVariables ts) 0%Qc in
  let b := matrixFreeRHS ts zeros in
  let x := getX (m_simulationData ts) in
  let x' := getX (m_simulationData (cgSolve ts).2) in
  length x = numVariables ts →
  (cgSolve ts).1 ≠ MAX_ITER_REACHED →
  (squaredNorm (true_residual ts b x') < tol_abs)%Qc ∨
  (squaredNorm (true_residual ts b x')
   < tol_rel * squaredNorm (true_residual ts b x))%Qc.
Proof.
  intros zeros b x x' Hx Hstate. apply cg_converged_spec.
  revert x' Hstate. unfold cgSolve, cgSolve_run.
  pose proof (cg_init_ts ts) as Hts. pose proof (cg_init_exact ts Hx) as Hexact.
  assert ((cg_init ts).2 = b) as Hb by done.
  assert (cg_delta_new (cg_init ts).1 = squaredNorm (true_residual ts b x))
    as Hdelta by done.
  destruct (cg_init ts) as [s0 b']. cbn [fst snd] in *. subst b'.
  destruct (cg_converged (cg_delta_new s0) (cg_delta_new s0)) eqn:Htest.
  - cbn [fst snd]. intros _. rewrite Hts. fold x. by rewrite <- Hdelta.
  - pose proof (cg_loop_frame b (cg_delta_new s0) (numVariables ts) 0 s0)
      as Hframe.
    destruct (cg_loop_exit b (cg_delta_new s0) (numVariables ts) 0 s0 Hexact)
      as [Hs Hconv].
    pose proof (cg_loop_not_already_solved b (cg_delta_new s0)
                  (numVariables ts) 0 s0) as Hnot.
    destruct (cg_loop _ _ _ _ _) as [[state s] it]. cbn [fst snd] in *.
    intros Hstate. rewrite Hts in Hframe.
    destruct (residual_exact_true ts b s Hframe Hs) as [_ Hr].
    rewrite <- Hdelta. unfold cg_x in Hr. rewrite <- Hr.
    apply Hconv. by destruct state.
Qed.

(** ** The preparation of the solve *)

Lemma count_fluid_neighbors_spec (m : FluidModel) (i : nat) :
  count_fluid_neighbors m i = 1 + fluid_entries m i.
Proof.
  unfold count_fluid_neighbors, fluid_entries.
  pose (P := λ (j nfn : nat),
    nfn = 1 + length (filter (λ id, point_set_id id = 0)
                             (take j (neighborsOf m i)))).
  assert (P (numberOfNeighbors m i)
            (foldl (λ nfn j, if decide (point_set_id (getNeighbor m i j) = 0)
                             then nfn + 1 else nfn)
                   1 (seq 0 (numberOfNeighbors m i)))) as HP.
  { apply foldl_seq_invariant.
    - unfold P. by rewrite take_0.
    - intros j nfn Hj ->. unfold P.
      rewrite (take_S_r _ _ _ (getNeighbor_lookup m i j Hj)).
      rewrite filter_app, length_app, filter_cons, filter_nil.
      case_decide; simpl; lia. }
  unfold P in HP. rewrite HP. unfold neighborsOf, numberOfNeighbors.
  by rewrite firstn_all.
Qed.

Lemma at_setVec3Block (x : VectorXr) (i t c : nat) (v : Vector3r) :
  c < 3 → 3 * t + c < length x →
  at_ (setVec3Block x i v) (3 * t + c)
  = if decide (i = t) then coeff v c else at_ x (3 * t + c).
Proof.
  intros Hc Hk. unfold setVec3Block. case_decide as Hi.
  - subst t. destruct c as [|[|[|c]]]; [| | |lia]; cbn [coeff].
    + rewrite !at_insert_ne by lia. rewrite Nat.add_0_r. apply at_insert_eq. lia.
    + rewrite at_insert_ne by lia. apply at_insert_eq. rewrite length_insert. lia.
    + apply at_insert_eq. rewrite !length_insert. lia.
  - by rewrite !at_insert_ne by lia.
Qed.

Lemma list_eq_default {A : Type} (d : A) (l1 l2 : list A) :
  length l1 = length l2 →
  (∀ i, i < length l1 → default d (l1 !! i) = default d (l2 !! i)) → l1 = l2.
Proof.
  intros Hlen Hat. apply list_eq. intros i.
  destruct (decide (i < length l1)) as [Hi|Hi].
  - specialize (Hat i Hi).
    destruct (lookup_lt_is_Some_2 l1 i Hi) as [a Ha].
    destruct (lookup_lt_is_Some_2 l2 i ltac:(lia)) as [b Hb].
    rewrite Ha, Hb in *. simpl in Hat. by subst.
  - rewrite !lookup_ge_None_2 by lia. done.
Qed.

(** [prepareSolve] after [n] particles, entry by entry. *)
Lemma prepareSolve_entries (m : FluidModel) (d : SimulationDataPF) (n : nat) :
  let d' := foldl (prepareSolve_particle m) d (seq 0 n) in
  oldPositions d' = oldPositions d ∧
  predictedPositions d' = predictedPositions d ∧
  length (getX d') = length (getX d) ∧
  length (fluidNeighborCounts d') = length (fluidNeighborCounts d) ∧
  (∀ t c, c < 3 → 3 * t + c < length (getX d) →
          at_ (getX d') (3 * t + c)
          = if decide (t < n) then coeff (getPosition m 0 t) c
            else at_ (getX d) (3 * t + c)) ∧
  (∀ i, i < length (fluidNeighborCounts d) →
        getNumFluidNeighbors d' i
        = if decide (i < n) then count_fluid_neighbors m i
          else getNumFluidNeighbors d i).
Proof.
  cbv zeta.
  pose (P := λ (k : nat) (d' : SimulationDataPF),
    oldPositions d' = oldPositions d ∧
    predictedPositions d' = predictedPositions d ∧
    length (getX d') = length (getX d) ∧
    length (fluidNeighborCounts d') = length (fluidNeighborCounts d) ∧
    (∀ t c, c < 3 → 3 * t + c < length (getX d) →
            at_ (getX d') (3 * t + c)
            = if decide (t < k) then coeff (getPosition m 0 t) c
              else at_ (getX d) (3 * t + c)) ∧
    (∀ i, i < length (fluidNeighborCounts d) →
          getNumFluidNeighbors d' i
          = if decide (i < k) then count_fluid_neighbors m i
            else getNumFluidNeighbors d i)).
  apply (foldl_seq_invariant P); unfold P; clear P.
  - split; [done|]. split; [done|]. split; [done|]. split; [done|].
    split; [intros t c _ _|intros i _]; by rewrite decide_False by lia.
  - intros j d' _ (Hold & HS & Hlen & Hcount & HX & Hn).
    unfold prepareSolve_particle. cbv zeta. fields.
    rewrite length_setVec3Block, length_insert.
    split; [done|]. split; [done|]. split; [done|]. split; [done|]. split.
    + intros t c Hc Hk. rewrite at_setVec3Block by (done || lia).
      rewrite HX by done. repeat case_decide; (done || lia || by subst).
    + intros i Hi. unfold getNumFluidNeighbors in *. fields.
      destruct (decide (i = j)) as [->|Hne].
      * rewrite default_insert_eq by lia. by rewrite decide_True by lia.
      * rewrite default_insert_ne by lia. rewrite Hn by done.
        repeat case_decide; (done || lia).
Qed.

Lemma SimulationDataPF_eq (d1 d2 : SimulationDataPF) :
  oldPositions d1 = oldPositions d2 →
  predictedPositions d1 = predictedPositions d2 →
  getX d1 = getX d2 →
  fluidNeighborCounts d1 = fluidNeighborCounts d2 → d1 = d2.
Proof. destruct d1, d2. simpl. by intros -> -> -> ->. Qed.

(** [prepareSolve] copies the position of every particle into its block of
    [x] and stores, as its fluid-neighbour count, one more than the number of
    entries of its neighbour list that name a fluid particle; it touches
    neither the model nor the old and predicted positions, and preparing
    twice is preparing once. *)
Theorem prepareSolve_spec (ts : TimeStepPF) (i : nat) :
  let m := m_model ts in
  let d := m_simulationData ts in
  let prepared := prepareSolve ts in
  let d' := m_simulationData prepared in
  i < numParticles m →
  length (getX d) = 3 * numParticles m →
  length (fluidNeighborCounts d) = numParticles m →
  Vec3Block (getX d') i = getPosition m 0 i ∧
  getNumFluidNeighbors d' i = 1 + fluid_entries m i ∧
  m_model prepared = m ∧
  oldPositions d' = oldPositions d ∧
  predictedPositions d' = predictedPositions d ∧
  length (getX d') = 3 * numParticles m ∧
  prepareSolve prepared = prepared.
Proof.
  intros m d prepared d' Hi Hx Hcount.
  destruct (prepareSolve_entries m d (numParticles m))
    as (Hold & HS & Hlen & Hlenc & HX & Hn).
  destruct (prepareSolve_entries m d' (numParticles m))
    as (Hold2 & HS2 & Hlen2 & Hlenc2 & HX2 & Hn2).
  change (foldl (prepareSolve_particle m) d (seq 0 (numParticles m)))
    with d' in *.
  split.
  { destruct (getPosition m 0 i) as [a b c] eqn:Hpos. unfold Vec3Block.
    pose proof (HX i 0) as H0. pose proof (HX i 1) as H1.
    pose proof (HX i 2) as H2.
    rewrite decide_True in H0, H1, H2 by done. rewrite Hpos in H0, H1, H2.
    rewrite Nat.add_0_r in H0.
    rewrite H0, H1, H2 by lia. done. }
  split.
  { rewrite Hn by lia. rewrite decide_True by done.
    apply count_fluid_neighbors_spec. }
  split; [done|]. split; [done|]. split; [done|]. split; [lia|].
  unfold prepareSolve at 1. cbv zeta.
  change (m_model prepared) with m.
  change (m_simulationData prepared) with d'.
  rewrite <- (with_data_same prepared) at 2.
  change (m_simulationData prepared) with d'. f_equal.
  apply SimulationDataPF_eq; [done|done| |].
  - apply vector_eq; [done|]. intros k Hk. rewrite Hlen2 in Hk.
    destruct (index_block k) as (t & c & Hc & ->).
    rewrite HX2 by done. case_decide as Ht; [|done].
    rewrite HX by lia. by rewrite decide_True.
  - apply (list_eq_default 0); [done|]. intros k Hk. rewrite Hlenc2 in Hk.
    pose proof (Hn2 k Hk) as Hk2. unfold getNumFluidNeighbors in Hk2, Hn.
    rewrite Hk2. case_decide as Ht; [|done].
    rewrite Hn by lia. by rewrite decide_True.
Qed.

(** ** The outer loop *)

(** The loop of [solvePDConstraints] from its iteration [c] on: it ends
    with the object after [solves] calls of [cgSolve], none of which but the
    last returned [ALREADY_SOLVED]. *)
Lemma pd_loop_spec (ts0 : TimeStepPF) (n c : nat) :
  let run := pd_loop n (pd_trace ts0 c) c in
  run.1 = pd_trace ts0 run.2 ∧
  c ≤ run.2 ≤ c + n ∧
  (0 < n → c < run.2) ∧
  (∀ k, c ≤ k → k + 1 < run.2 →
        (cgSolve (pd_trace ts0 k)).1 ≠ ALREADY_SOLVED) ∧
  (run.2 < c + n →
   (cgSolve (pd_trace ts0 (run.2 - 1))).1 = ALREADY_SOLVED).
Proof.
  revert c. induction n as [|n IH]; intros c; cbv zeta.
  { cbn [pd_loop fst snd]. repeat split; (done || lia). }
  cbn [pd_loop].
  assert (pd_trace ts0 (S c) = (cgSolve (pd_trace ts0 c)).2) as Hnext by done.
  destruct (cgSolve (pd_trace ts0 c)) as [state ts'] eqn:Hsolve.
  cbn [snd] in Hnext. subst ts'.
  destruct (decide (state = ALREADY_SOLVED)) as [->|Hstate].
  - cbn [fst snd]. split; [done|]. split; [lia|]. split; [lia|].
    split; [intros k ??; lia|]. intros _.
    replace (S c - 1) with c by lia. by rewrite Hsolve.
  - destruct (IH (S c)) as (Hrun & Hbound & Hpos & Hbefore & Hlast).
    split; [done|]. split; [lia|]. split; [lia|]. split.
    + intros k Hk Hlt. destruct (decide (k = c)) as [->|Hne].
      * by rewrite Hsolve.
      * apply Hbefore; lia.
    + intros Hlt. apply Hlast. lia.
Qed.

Lemma pd_trace_frame (ts : TimeStepPF) (k : nat) :
  same_except_X ts (pd_trace ts k) ∧
  (length (getX (m_simulationData ts)) = numVariables ts →
   length (getX (m_simulationData (pd_trace ts k))) = numVariables ts).
Proof.
  induction k as [|k [Hsame Hlen]]; [split; [apply same_except_X_refl|done]|].
  cbn [pd_trace].
  destruct (cgSolve_changes_only_X (pd_trace ts k)) as [Hsame' Hlen'].
  destruct (same_system_diagonal ts (pd_trace ts k)) as (_ & Hn & _);
    [by apply same_except_X_system|].
  split; [by apply (same_except_X_trans _ _ _ Hsame)|].
  intros Hx. rewrite <- Hn. apply Hlen'. rewrite Hn. by apply Hlen.
Qed.

(** What [updatePositionsAndVelocity] leaves alone. *)
Lemma updatePositionsAndVelocity_model (h : Real) (d : SimulationDataPF)
    (m : FluidModel) (n : nat) :
  let m' := foldl (updatePositionsAndVelocity_particle h d) m (seq 0 n) in
  numParticles m' = numParticles m ∧
  fluidAcceleration m' = fluidAcceleration m ∧
  fluidMass m' = fluidMass m ∧
  neighborLists m' = neighborLists m.
Proof.
  cbv zeta. apply (foldl_seq_invariant (λ _ m',
    numParticles m' = numParticles m ∧
    fluidAcceleration m' = fluidAcceleration m ∧
    fluidMass m' = fluidMass m ∧
    neighborLists m' = neighborLists m)); [done|].
  intros j m' _ Hm'. unfold updatePositionsAndVelocity_particle. cbv zeta.
  by fields.
Qed.

(** [solvePDConstraints] calls [cgSolve] at most [m_maxIterations] times
    and stops after the first call that returns [ALREADY_SOLVED]; the
    positions it leaves are the blocks of the last [x], the velocities are
    the displacement from the old positions of the prediction divided by the
    step size, and accelerations, masses, neighbour lists, the old and the
    predicted positions are those it was called with. *)
Theorem solvePDConstraints_spec (ts : TimeStepPF) (i : nat) :
  let m := m_model ts in
  let d := m_simulationData ts in
  let prepared := prepareSolve ts in
  let solves := (solvePDConstraints_run ts).2 in
  let solved := pd_trace prepared solves in
  let after := solvePDConstraints ts in
  i < numParticles m →
  length (fluidPosition m) = numParticles m →
  length (fluidVelocity m) = numParticles m →
  solves ≤ m_maxIterations ts ∧
  (0 < m_maxIterations ts → 0 < solves) ∧
  (∀ k, k + 1 < solves → (cgSolve (pd_trace prepared k)).1 ≠ ALREADY_SOLVED) ∧
  (solves < m_maxIterations ts →
   (cgSolve (pd_trace prepared (solves - 1))).1 = ALREADY_SOLVED) ∧
  after = updatePositionsAndVelocity solved ∧
  getPosition (m_model after) 0 i = Vec3Block (getX (m_simulationData solved)) i ∧
  getVelocity (m_model after) i
  = div3 (sub3 (getPosition (m_model after) 0 i) (getOldPosition d i))
         (getTimeStepSize ts) ∧
  fluidAcceleration (m_model after) = fluidAcceleration m ∧
  fluidMass (m_model after) = fluidMass m ∧
  neighborLists (m_model after) = neighborLists m ∧
  oldPositions (m_simulationData after) = oldPositions d ∧
  predictedPositions (m_simulationData after) = predictedPositions d.
Proof.
  intros m d prepared solves solved after Hi Hp Hv.
  destruct (pd_loop_spec prepared (m_maxIterations ts) 0)
    as (Hrun & Hbound & Hpos & Hbefore & Hlast).
  assert (solvePDConstraints_run ts
          = (updatePositionsAndVelocity
               (pd_loop (m_maxIterations ts) prepared 0).1,
             (pd_loop (m_maxIterations ts) prepared 0).2)) as Hsolve.
  { unfold solvePDConstraints_run. cbv zeta. fold prepared.
    change (m_maxIterations prepared) with (m_maxIterations ts).
    by destruct (pd_loop _ _ _). }
  assert (solves = (pd_loop (m_maxIterations ts) prepared 0).2) as Hsolves
    by (unfold solves; by rewrite Hsolve).
  assert (after = updatePositionsAndVelocity solved) as Hafter.
  { unfold after, solvePDConstraints. rewrite Hsolve. cbn [fst].
    cbn [pd_trace] in Hrun. rewrite Hrun. unfold solved. by rewrite Hsolves. }
  cbn [pd_trace] in Hrun, Hbound, Hpos, Hbefore, Hlast.
  rewrite <- Hsolves in Hbound, Hpos, Hbefore, Hlast.
  destruct (pd_trace_frame prepared solves)
    as [(Hmodel & Hh & _ & Hold & HS & _) _].
  fold solved in Hmodel, Hh, Hold, HS.
  change (m_model prepared) with m in Hmodel.
  change (getTimeStepSize prepared) with (getTimeStepSize ts) in Hh.
  destruct (prepareSolve_loop m d (numParticles m)) as (_ & HS' & Hold' & _).
  change (foldl (prepareSolve_particle m) d (seq 0 (numParticles m)))
    with (m_simulationData prepared) in HS', Hold'.
  destruct (updatePositionsAndVelocity_loop (getTimeStepSize ts)
              (m_simulationData solved) m (numParticles m)) as (_ & _ & Hupd).
  destruct (Hupd i) as [Hx Hvel]; [lia..|].
  destruct (updatePositionsAndVelocity_model (getTimeStepSize ts)
              (m_simulationData solved) m (numParticles m))
    as (_ & Hacc & Hmass & Hlists).
  assert (m_model after
          = foldl (updatePositionsAndVelocity_particle (getTimeStepSize ts)
                     (m_simulationData solved)) m (seq 0 (numParticles m)))
    as Hm'.
  { rewrite Hafter. unfold updatePositionsAndVelocity. cbv zeta.
    cbn [m_model with_model]. by rewrite Hmodel, Hh. }
  assert (m_simulationData after = m_simulationData solved) as Hd'
    by (by rewrite Hafter).
  split; [lia|]. split; [lia|].
  split; [intros k Hk; apply Hbefore; lia|].
  split; [intros Hlt; apply Hlast; lia|].
  split; [exact Hafter|]. rewrite Hm', Hd'.
  split; [exact Hx|]. split.
  { rewrite Hx, Hvel. unfold getOldPosition. by rewrite Hold, Hold'. }
  split; [exact Hacc|]. split; [exact Hmass|]. split; [exact Hlists|].
  split; [by rewrite Hold, Hold'|by rewrite HS, HS'].
Qed.

(** ** A step without pressure forces *)

(** What [initialGuessForPositions] leaves alone. *)
Lemma initialGuess_frame (ts : TimeStepPF) (n : nat) :
  let ts' := foldl initialGuess_particle ts (seq 0 n) in
  numParticles (m_model ts') = numParticles (m_model ts) ∧
  getStiffness (m_model ts') = getStiffness (m_model ts) ∧
  m_maxIterations ts' = m_maxIterations ts ∧
  getX (m_simulationData ts') = getX (m_simulationData ts).
Proof.
  cbv zeta. apply (foldl_seq_invariant (λ _ ts',
    numParticles (m_model ts') = numParticles (m_model ts) ∧
    getStiffness (m_model ts') = getStiffness (m_model ts) ∧
    m_maxIterations ts' = m_maxIterations ts ∧
    getX (m_simulationData ts') = getX (m_simulationData ts))); [done|].
  intros j ts' _ Hts'. unfold initialGuess_particle. cbv zeta. by fields.
Qed.

(** The outer loop on an object that is already solved. *)
Lemma pd_loop_already_solved (ts : TimeStepPF) (n : nat) :
  cgSolve ts = (ALREADY_SOLVED, ts) → pd_loop n ts 0 = (ts, 1 `min` n).
Proof.
  intros Hsolve. destruct n as [|n]; [done|].
  cbn [pd_loop]. rewrite Hsolve. by rewrite decide_True.
Qed.

(** The velocity that the update computes from the inertial guess. *)
Lemma inertial_velocity (p v a : Vector3r) (h : Real) :
  h ≠ 0%Qc →
  div3 (sub3 (add3 (add3 p (scale3 h v)) (scale3 (h * h) a)) p) h
  = add3 v (scale3 h a).
Proof.
  intros Hh. destruct p, v, a. unfold div3, sub3, add3, scale3.
  cbn [v0 v1 v2]. f_equal; by field.
Qed.

(** When the stiffness is 0, or when no particle is compressed at the
    predicted positions, the prediction, a neighbourhood search and
    [solvePDConstraints] together are one step of symplectic Euler: one call
    of [cgSolve], which returns [ALREADY_SOLVED]; every particle ends at
    [position + h · velocity + h² · acceleration] with the velocity
    [velocity + h · acceleration]. *)
Theorem step_without_pressure (ts : TimeStepPF) (lists : list (list NeighborId))
    (i : nat) :
  let m := m_model ts in
  let d := m_simulationData ts in
  let h := getTimeStepSize ts in
  let searched := setNeighborLists (initialGuessForPositions ts) lists in
  let after := solvePDConstraints searched in
  i < numParticles m →
  length (fluidPosition m) = numParticles m →
  length (fluidVelocity m) = numParticles m →
  length (oldPositions d) = numParticles m →
  length (predictedPositions d) = numParticles m →
  length (getX d) = 3 * numParticles m →
  h ≠ 0%Qc →
  getStiffness m = 0%Qc ∨ uncompressed (prepareSolve searched) →
  cgSolve (prepareSolve searched) = (ALREADY_SOLVED, prepareSolve searched) ∧
  (solvePDConstraints_run searched).2 = 1 `min` m_maxIterations ts ∧
  getPosition (m_model after) 0 i = inertial_guess ts i ∧
  getVelocity (m_model after) i
  = add3 (getVelocity m i) (scale3 h (getAcceleration m i)).
Proof.
  intros m d h searched after Hi Hp Hv Ho HS HX Hh Hcase.
  set (predicted := initialGuessForPositions ts) in *.
  set (prepared := prepareSolve searched) in *.
  destruct (initialGuess_loop ts (numParticles m))
    as (Hp' & Ho' & HS' & Hv' & _ & Hh' & _ & Hguess).
  destruct (initialGuess_frame ts (numParticles m)) as (HN & Hk & Hmax & HX').
  change (foldl initialGuess_particle ts (seq 0 (numParticles m)))
    with predicted in *.
  fold m d in Hp', Ho', HS', Hv', Hguess, HN, Hk, HX'.
  assert (numParticles (m_model searched) = numParticles m) as HNs by done.
  assert (∀ t, getPosition (m_model searched) 0 t
               = getPosition (m_model predicted) 0 t) as Hpos by done.
  assert (m_simulationData searched = m_simulationData predicted) as Hds by done.
  destruct (prepareSolve_loop (m_model searched) (m_simulationData searched)
              (numParticles m)) as (Hlen & HSp & Holdp & Hblocks).
  assert (m_simulationData prepared
          = foldl (prepareSolve_particle (m_model searched))
                  (m_simulationData searched) (seq 0 (numParticles m))) as Hdp
    by (unfold prepared, prepareSolve; cbv zeta; by rewrite HNs).
  rewrite <- Hdp in Hlen, HSp, Holdp, Hblocks. rewrite Hds in Hlen, HSp, Holdp, Hblocks.
  rewrite HX' in Hlen, Hblocks. fold d in Hlen, Hblocks.
  assert (m_model prepared = m_model searched) as Hmp by done.
  assert (∀ t, t < numParticles m →
            Vec3Block (getX (m_simulationData prepared)) t = inertial_guess ts t ∧
            getS (m_simulationData prepared) t = inertial_guess ts t ∧
            getOldPosition (m_simulationData prepared) t = getPosition m 0 t)
    as Hprepared.
  { intros t Ht. destruct (Hguess t) as (Hold & Hpos' & Hs'); [lia..|].
    rewrite Hblocks by lia. rewrite Hpos, Hpos'.
    unfold getS, getOldPosition in *. by rewrite HSp, Holdp. }
  assert (cgSolve prepared = (ALREADY_SOLVED, prepared)) as Hsolve.
  { apply cgSolve_zero_residual, squaredNorm_zero.
    intros k Hlt. rewrite length_cg_init_residual in Hlt.
    unfold numVariables in Hlt. rewrite Hmp, HNs in Hlt.
    destruct (block_index k (numParticles m)) as (t & c & Ht & Hc & ->);
      [exact Hlt|].
    rewrite cg_init_residual by (by rewrite ?Hmp, ?HNs).
    destruct (Hprepared t Ht) as (Hx & Hs & _).
    rewrite <- (coeff_Vec3Block (getX (m_simulationData prepared)) t c)
      by done.
    rewrite Hx, Hs.
    destruct Hcase as [Hzero|Hu].
    - replace (getStiffness (m_model prepared)) with 0%Qc
        by (by rewrite <- Hzero, <- Hk).
      ring.
    - rewrite (rhs_accumulator_uncompressed prepared Hu). ring. }
  assert (solvePDConstraints_run searched
          = (updatePositionsAndVelocity prepared, 1 `min` m_maxIterations ts))
    as Hrun.
  { unfold solvePDConstraints_run. cbv zeta. fold prepared.
    rewrite (pd_loop_already_solved prepared _ Hsolve).
    change (m_maxIterations prepared) with (m_maxIterations predicted).
    by rewrite Hmax. }
  split; [exact Hsolve|]. split; [by rewrite Hrun|].
  unfold after, solvePDConstraints. rewrite Hrun. cbn [fst].
  destruct (updatePositionsAndVelocity_loop (getTimeStepSize prepared)
              (m_simulationData prepared) (m_model prepared)
              (numParticles (m_model prepared))) as (_ & _ & Hupd).
  assert (fluidPosition (m_model prepared) = fluidPosition (m_model predicted))
    as Hfp by done.
  assert (fluidVelocity (m_model prepared) = fluidVelocity m) as Hfv by done.
  rewrite Hfp, Hfv, Hmp, HNs in Hupd.
  destruct (Hupd i) as [Hx Hvel]; [lia..|].
  destruct (Hprepared i Hi) as (Hblock & _ & Hold).
  unfold updatePositionsAndVelocity. cbv zeta. cbn [m_model with_model].
  rewrite Hmp, HNs. rewrite Hx, Hvel, Hblock, Hold.
  split; [done|].
  change (getTimeStepSize prepared) with (getTimeStepSize predicted).
  rewrite Hh'. unfold inertial_guess. cbv zeta. fold m h.
  by apply inertial_velocity.
Qed.

(** ** A system with a uniform diagonal *)

Lemma operator_diagonal_uniform (ts : TimeStepPF) (a : Real) :
  (∀ t, t < numParticles (m_model ts) → diagonal_entry ts t = a) →
  operator_diagonal ts = replicate (numVariables ts) a.
Proof.
  intros Ha. apply (list_eq_default 0%Qc).
  - by rewrite length_operator_diagonal, length_replicate.
  - intros k Hk. rewrite length_operator_diagonal in Hk.
    fold (at_ (operator_diagonal ts) k). rewrite at_operator_diagonal by done.
    rewrite lookup_replicate_2 by done. apply Ha.
    apply Nat.Div0.div_lt_upper_bound. exact Hk.
Qed.

Lemma zip_with_replicate (a : Real) (v : VectorXr) :
  zip_with Qcmult (replicate (length v) a) v = vscale a v.
Proof. induction v as [|u v IH]; [done|]. simpl. by rewrite IH. Qed.

Lemma cg_init_vars (ts : TimeStepPF) :
  let r := cg_r (cg_init ts).1 in
  (cg_init ts).1
  = mkCGVars ts r r (replicate (numVariables ts) 0%Qc) (squaredNorm r) max_Real.
Proof. done. Qed.

(** The first iteration on a system whose diagonal is uniform ends with a
    residual that is zero. *)
Lemma cg_first_iteration_uniform (ts : TimeStepPF) (a : Real) :
  let s0 := (cg_init ts).1 in
  let b := (cg_init ts).2 in
  length (getX (m_simulationData ts)) = numVariables ts →
  (∀ t, t < numParticles (m_model ts) → diagonal_entry ts t = a) →
  a ≠ 0%Qc → (0 < cg_delta_new s0)%Qc →
  cg_r (cg_advance b 0 s0) = replicate (numVariables ts) 0%Qc ∧
  cg_delta_new (cg_advance b 0 s0) = 0%Qc.
Proof.
  intros s0 b Hx Ha Hne Hpos.
  pose proof (cg_init_exact ts Hx) as Hexact. fold s0 b in Hexact.
  destruct (cg_advance_restart b 0 s0 Hexact) as [-> _].
  pose proof (length_cg_init_residual ts) as Hlen.
  unfold s0 in *. rewrite cg_init_vars in *. clear s0.
  set (r := cg_r (cg_init ts).1) in *. cbn [cg_delta_new] in Hpos.
  cbn [cg_r] in Hlen.
  unfold cg_advance_incremental. cbv zeta.
  cbn [cg_ts cg_r cg_d cg_q cg_delta_new].
  rewrite matrixFreeLHS_diagonal by vec_length.
  rewrite (operator_diagonal_uniform ts a Ha), <- Hlen, zip_with_replicate.
  assert (vsub r (vscale (squaredNorm r / dot r (vscale a r)) (vscale a r))
          = replicate (length r) 0%Qc) as Hzero.
  { apply vector_eq; [vec_length|]. intros k Hk.
    rewrite at_vsub by (vec_length || (revert Hk; vec_length)).
    rewrite !at_vscale, at_replicate, dot_vscale_r.
    fold (squaredNorm r). apply Qclt_not_eq in Hpos.
    field. split; [done|]. by intros ->. }
  rewrite Hzero. split; [done|]. apply squaredNorm_replicate_0.
Qed.

(** When the operator has the same diagonal entry [a ≠ 0] for every
    particle (a single particle, or equal masses with stiffness 0),
    [cgSolve] runs at most one iteration, never returns [MAX_ITER_REACHED],
    and the [x] it leaves after that iteration solves the system exactly:
    [b - A x] is the zero vector. *)
Theorem uniform_system_one_iteration (ts : TimeStepPF) (a : Real) :
  let zeros := replicate (numVariables ts) 0%Qc in
  let b := matrixFreeRHS ts zeros in
  let x' := getX (m_simulationData (cgSolve ts).2) in
  length (getX (m_simulationData ts)) = numVariables ts →
  (∀ t, t < numParticles (m_model ts) → diagonal_entry ts t = a) →
  a ≠ 0%Qc →
  (cgSolve_run ts).2 ≤ 1 ∧
  (cgSolve ts).1 ≠ MAX_ITER_REACHED ∧
  ((cgSolve ts).1 = CONVERGED → true_residual ts b x' = zeros).
Proof.
  intros zeros b x' Hx Ha Hne. revert x'.
  pose proof (cg_first_iteration_uniform ts a Hx Ha Hne) as Hfirst.
  pose proof (cg_init_exact ts Hx) as Hexact.
  pose proof (length_cg_init_residual ts) as Hlen.
  pose proof (cg_init_ts ts) as Hts.
  assert (cg_delta_new (cg_init ts).1 = squaredNorm (cg_r (cg_init ts).1))
    as Hdelta by done.
  assert ((cg_init ts).2 = b) as Hb by done.
  unfold cgSolve, cgSolve_run. cbv zeta in Hfirst.
  destruct (cg_init ts) as [s0 b']. cbn [fst snd] in *. subst b'.
  destruct (cg_converged (cg_delta_new s0) (cg_delta_new s0)) eqn:Htest.
  { cbn [fst snd]. split; [lia|]. by split. }
  pose proof (not_converged_positive _ _ Htest) as Hpos.
  destruct (Hfirst Hpos) as [Hr Hzero].
  destruct (cg_advance_restart b 0 s0 Hexact) as [_ Hexact1].
  destruct (numVariables ts) as [|n] eqn:Hn.
  { destruct (cg_r s0); [|done]. rewrite Hdelta in Hpos.
    apply Qclt_not_eq in Hpos. by destruct Hpos. }
  cbn [cg_loop]. cbv zeta. rewrite Hzero.
  assert (cg_converged 0 (cg_delta_new s0) = true) as ->.
  { apply cg_converged_spec. left. compute_Qc. }
  cbn [fst snd]. split; [lia|]. split; [done|]. intros _.
  assert (same_except_X ts (cg_ts (cg_advance b 0 s0))) as Hsame.
  { rewrite <- Hts at 1. unfold cg_advance. cbv zeta. cbn [cg_ts].
    by repeat split. }
  destruct (residual_exact_true ts b _ Hsame Hexact1) as [_ Hres].
  unfold cg_x in Hres. by rewrite <- Hres, Hr.
Qed.

(** ** The further properties on the concrete configurations *)

(** Linearity of the operator on the configuration, with three different
    result buffers. *)
Lemma matrixFreeLHS_linear_example :
  let ts := prepareSolve example_step in
  let x := getX (m_simulationData ts) in
  let y := replicate 6 1%Qc in
  let zeros := replicate 6 0%Qc in
  length x = numVariables ts ∧ length y = numVariables ts ∧
  matrixFreeLHS ts (vadd x (vscale (Q2Qc 2) y)) zeros
  = vadd (matrixFreeLHS ts x x) (vscale (Q2Qc 2) (matrixFreeLHS ts y y)).
Proof.
  intros ts x y zeros.
  split; [vm_compute; reflexivity|]. split; [vm_compute; reflexivity|].
  destruct (matrixFreeLHS_linear ts x y zeros x y (Q2Qc 2)) as [Hlin _];
    [vm_compute; reflexivity..|exact Hlin].
Defined.

(** Symmetry and positivity of the operator on the configuration. *)
Lemma matrixFreeLHS_symmetric_positive_example :
  let ts := prepareSolve example_step in
  let x := getX (m_simulationData ts) in
  let y := replicate 6 1%Qc in
  let zeros := replicate 6 0%Qc in
  length x = numVariables ts ∧ length y = numVariables ts ∧
  dot x (matrixFreeLHS ts y zeros) = dot y (matrixFreeLHS ts x zeros) ∧
  (0 ≤ dot x (matrixFreeLHS ts x zeros))%Qc.
Proof.
  intros ts x y zeros.
  split; [vm_compute; reflexivity|]. split; [vm_compute; reflexivity|].
  destruct (matrixFreeLHS_symmetric_positive ts x y zeros zeros)
    as (Hsym & Hpos & _);
    [vm_compute; reflexivity..|apply example_positive|].
  split; [exact Hsym|exact Hpos].
Defined.

(** The accumulators of the configuration with the second particle visited
    first. *)
Lemma accumulators_order_independent_example :
  let ts := prepareSolve example_step in
  let x := getX (m_simulationData ts) in
  [1; 0] ≡ₚ seq 0 (numParticles (m_model ts)) ∧
  lhs_accumulator_in_order (m_model ts) x [1; 0] = lhs_accumulator (m_model ts) x ∧
  rhs_accumulator_in_order ts [1; 0] = rhs_accumulator ts.
Proof.
  intros ts x.
  assert ([1; 0] ≡ₚ seq 0 (numParticles (m_model ts))) as Horder
    by apply perm_swap.
  split; [exact Horder|].
  apply (accumulators_order_independent ts x [1; 0] Horder).
Defined.

(** The last stage of the step on the second particle of the moving
    configuration. *)
Lemma addAccellerationToVelocity_example :
  let ts := example_moving in
  let m := m_model ts in
  1 < numParticles m ∧ length (fluidVelocity m) = numParticles m ∧
  getVelocity (m_model (addAccellerationToVelocity ts)) 1
  = add3 (getVelocity m 1) (scale3 (getTimeStepSize ts) (getAcceleration m 1)) ∧
  fluidPosition (m_model (addAccellerationToVelocity ts)) = fluidPosition m.
Proof.
  intros ts m. split; [simpl; lia|]. split; [reflexivity|].
  destruct (addAccellerationToVelocity_spec ts 1) as (Hv & Hp & _);
    [simpl; lia|reflexivity|].
  split; [exact Hv|exact Hp].
Defined.

(** The first entry of the right-hand side of the configuration. *)
Lemma matrixFreeRHS_entries_example :
  let ts := prepareSolve example_step in
  let m := m_model ts in
  let zeros := replicate 6 0%Qc in
  let x := getX (m_simulationData ts) in
  length zeros = 3 * numParticles m ∧ length x = 3 * numParticles m ∧
  at_ (matrixFreeRHS ts zeros) (3 * 0 + 0)
  = (getTimeStepSize ts * getTimeStepSize ts * getStiffness m
     * vsum ((λ i, local_contribution m i (proj_p (project ts i)) 0 0)
             <$> seq 0 (numParticles m))
     + getMass m 0 * coeff (getS (m_simulationData ts) 0) 0)%Qc ∧
  matrixFreeRHS ts zeros = matrixFreeRHS ts x.
Proof.
  intros ts m zeros x.
  split; [vm_compute; reflexivity|]. split; [vm_compute; reflexivity|].
  apply (matrixFreeRHS_entries ts zeros x 0 0);
    [vm_compute; reflexivity|vm_compute; reflexivity|simpl; lia|lia].
Defined.

(** The gradient of the constraint of the first particle of the
    configuration at its gathered positions: its blocks sum to zero. *)
Lemma calculateNablaC_blocks_example :
  let ts := prepareSolve example_step in
  let m := m_model ts in
  let p := gather_local m (getX (m_simulationData ts)) 0 in
  let g := calculateNablaC m 0 p in
  length p = numberOfNeighbors m 0 + 1 ∧ 1 < numberOfNeighbors m 0 ∧
  length g = 3 * length p ∧
  sum3 (Vec3Block g <$> seq 0 (length p)) = Vector3r_zero.
Proof.
  intros ts m p g.
  split; [vm_compute; reflexivity|]. split; [vm_compute; lia|].
  destruct (calculateNablaC_blocks m 0 p 1) as (Hlen & _ & Hsum);
    [vm_compute; reflexivity|vm_compute; lia|].
  split; [exact Hlen|exact Hsum].
Defined.

(** The boundary neighbour of the first particle of the configuration is
    where the model has it after the projection. *)
Lemma projection_keeps_boundary_example :
  let ts := prepareSolve example_step in
  let m := m_model ts in
  1 < numberOfNeighbors m 0 ∧
  point_set_id (getNeighbor m 0 1) = 1 ∧
  length (proj_p (project ts 0)) = numberOfNeighbors m 0 + 1 ∧
  local_at (proj_p (project ts 0)) (1 + 1) = getPosition m 1 0.
Proof.
  intros ts m. split; [vm_compute; lia|]. split; [reflexivity|].
  apply (projection_keeps_boundary ts 0 1); [vm_compute; lia|].
  vm_compute. discriminate.
Defined.

(** The projection of the single particle. *)
Lemma isolated_particle_example :
  let ts := example_single in
  numberOfNeighbors (m_model ts) 0 = 0 ∧
  proj_p (project ts 0) = [Vec3Block (getX (m_simulationData ts)) 0] ∧
  proj_steps (project ts 0) ≤ 1.
Proof.
  intros ts. split; [reflexivity|].
  destruct (isolated_particle_projection ts 0) as (Hp & Hsteps & _);
    [reflexivity|].
  split; [exact Hp|exact Hsteps].
Defined.

Lemma example_single_uncompressed : uncompressed example_single.
Proof.
  intros i Hi. destruct i as [|i]; [vm_compute; discriminate|].
  simpl in Hi. lia.
Defined.

(** The first residual of the single particle, which is not compressed:
    its mass times the distance to its predicted position. *)
Lemma uncompressed_example :
  let ts := example_single in
  0 < numParticles (m_model ts) ∧
  at_ (cg_r (cg_init ts).1) (3 * 0 + 1)
  = (getMass (m_model ts) 0
     * (coeff (getS (m_simulationData ts) 0) 1
        - at_ (getX (m_simulationData ts)) (3 * 0 + 1)))%Qc ∧
  rhs_accumulator ts = lhs_accumulator (m_model ts) (getX (m_simulationData ts)).
Proof.
  intros ts. split; [simpl; lia|].
  destruct (uncompressed_residual_is_inertial ts 0 1) as (Hacc & Hr & _);
    [apply example_single_uncompressed|simpl; lia|lia|].
  split; [exact Hr|exact Hacc].
Defined.

(** The solve on the configuration converges, and its result passes the
    test with its true residual. *)
Lemma cgSolve_reaches_tolerance_example :
  let ts := prepareSolve example_step in
  let zeros := replicate (numVariables ts) 0%Qc in
  let b := matrixFreeRHS ts zeros in
  let x := getX (m_simulationData ts) in
  let x' := getX (m_simulationData (cgSolve ts).2) in
  length x = numVariables ts ∧
  (cgSolve ts).1 = CONVERGED ∧
  ((squaredNorm (true_residual ts b x') < tol_abs)%Qc ∨
   (squaredNorm (true_residual ts b x')
    < tol_rel * squaredNorm (true_residual ts b x))%Qc).
Proof.
  intros ts zeros b x x'.
  split; [vm_compute; reflexivity|]. split; [vm_compute; reflexivity|].
  apply (cgSolve_reaches_tolerance ts); [vm_compute; reflexivity|].
  vm_compute. discriminate.
Defined.

(** The preparation of the solve on the configuration: both particles have
    one fluid neighbour. *)
Lemma prepareSolve_example :
  let ts := example_step in
  let d' := m_simulationData (prepareSolve ts) in
  0 < numParticles (m_model ts) ∧
  length (getX (m_simulationData ts)) = 3 * numParticles (m_model ts) ∧
  fluid_entries (m_model ts) 0 = 1 ∧
  Vec3Block (getX d') 0 = getPosition (m_model ts) 0 0 ∧
  getNumFluidNeighbors d' 0 = 1 + fluid_entries (m_model ts) 0 ∧
  prepareSolve (prepareSolve ts) = prepareSolve ts.
Proof.
  intros ts d'. split; [simpl; lia|]. split; [reflexivity|].
  split; [reflexivity|].
  destruct (prepareSolve_spec ts 0) as (Hx & Hn & _ & _ & _ & _ & Hidem);
    [simpl; lia|reflexivity|reflexivity|].
  split; [exact Hx|]. split; [exact Hn|exact Hidem].
Defined.

(** The outer loop on the configuration. *)
Lemma solvePDConstraints_example :
  let ts := example_step in
  let solves := (solvePDConstraints_run ts).2 in
  let solved := pd_trace (prepareSolve ts) solves in
  let after := solvePDConstraints ts in
  0 < numParticles (m_model ts) ∧
  solves ≤ m_maxIterations ts ∧
  after = updatePositionsAndVelocity solved ∧
  getPosition (m_model after) 0 0 = Vec3Block (getX (m_simulationData solved)) 0 ∧
  getVelocity (m_model after) 0
  = div3 (sub3 (getPosition (m_model after) 0 0)
               (getOldPosition (m_simulationData ts) 0))
         (getTimeStepSize ts).
Proof.
  intros ts solves solved after. split; [simpl; lia|].
  destruct (solvePDConstraints_spec ts 0)
    as (Hbound & _ & _ & _ & Hafter & Hpos & Hvel & _);
    [simpl; lia|reflexivity|reflexivity|].
  split; [exact Hbound|]. split; [exact Hafter|].
  split; [exact Hpos|exact Hvel].
Defined.

Lemma example_moving_uncompressed :
  uncompressed
    (prepareSolve
       (setNeighborLists (initialGuessForPositions example_moving)
          (neighborLists (m_model example_moving)))).
Proof.
  intros i Hi. destruct i as [|[|i]];
    [vm_compute; discriminate|vm_compute; discriminate|].
  simpl in Hi. lia.
Defined.

(** The moving configuration has a stiffness that is not 0, but its
    particles are not compressed at their predicted positions: its step is
    one of symplectic Euler. *)
Lemma step_without_pressure_example :
  let ts := example_moving in
  let m := m_model ts in
  let searched :=
    setNeighborLists (initialGuessForPositions ts) (neighborLists m) in
  let after := solvePDConstraints searched in
  1 < numParticles m ∧
  getTimeStepSize ts = Q2Qc (1 # 2) ∧
  getStiffness m = Q2Qc (1 # 10) ∧
  (solvePDConstraints_run searched).2 = 1 ∧
  getPosition (m_model after) 0 1 = inertial_guess ts 1 ∧
  getVelocity (m_model after) 1
  = add3 (getVelocity m 1) (scale3 (getTimeStepSize ts) (getAcceleration m 1)).
Proof.
  intros ts m searched after. split; [simpl; lia|].
  split; [reflexivity|]. split; [reflexivity|].
  destruct (step_without_pressure ts (neighborLists m) 1)
    as (_ & Hsolves & Hpos & Hvel);
    [simpl; lia|reflexivity|reflexivity|reflexivity|reflexivity|reflexivity
    |vm_compute; discriminate|right; apply example_moving_uncompressed|].
  split; [exact Hsolves|]. split; [exact Hpos|exact Hvel].
Defined.

(** The solve of the single particle: one iteration, after which the
    system is solved exactly. *)
Lemma uniform_system_example :
  let ts := example_single in
  let zeros := replicate (numVariables ts) 0%Qc in
  let b := matrixFreeRHS ts zeros in
  let x' := getX (m_simulationData (cgSolve ts).2) in
  length (getX (m_simulationData ts)) = numVariables ts ∧
  diagonal_entry ts 0 = Q2Qc (21 # 10) ∧
  (cgSolve ts).1 = CONVERGED ∧
  (cgSolve_run ts).2 ≤ 1 ∧
  true_residual ts b x' = zeros.
Proof.
  intros ts zeros b x'.
  assert (diagonal_entry ts 0 = Q2Qc (21 # 10)) as Hd by compute_Qc.
  assert ((cgSolve ts).1 = CONVERGED) as Hstate by (vm_compute; reflexivity).
  split; [reflexivity|]. split; [exact Hd|]. split; [exact Hstate|].
  destruct (uniform_system_one_iteration ts (Q2Qc (21 # 10)))
    as (Hit & _ & Hsolved).
  - reflexivity.
  - intros t Ht. destruct t as [|t]; [exact Hd|]. simpl in Ht. lia.
  - vm_compute. discriminate.
  - split; [exact Hit|exact (Hsolved Hstate)].
Defined.

(** * The last pass of the projection *)

(** C4.  The loop of the projection does not use the constraint value of
    the current positions in its 100th pass.  [it] is incremented in the
    loop condition, so the guard [it + 1 < max_steps] fails in the 99th pass
    already and [C] stays what it was after the 98th.  On the single
    particle between three boundary particles the constraint value after 99
    passes is within the goal [1e-14], but the loop variable is not: the loop
    does not leave, runs a 100th pass with the step size computed from the
    old value and moves the particle again. *)
Theorem projection_last_pass_stale :
  let ts := prepareSolve example_slow in
  let m := m_model ts in
  let start := projection_start ts 0 in
  let s98 := projection_loop ts 0 98 start in
  let s99 := projection_loop ts 0 99 start in
  let final := project ts 0 in
  let g := calculateNablaC m 0 (proj_p s99) in
  let stale := proj_C s99 in
  let fresh := calculateC m 0 (proj_p s99) in
  let x_of (s : Projection) := v0 (local_at (proj_p s) 0) in
  proj_steps s98 = 98 ∧ proj_steps s99 = 99 ∧
  (x_of s98 < x_of s99)%Qc ∧
  stale = calculateC m 0 (proj_p s98) ∧
  (C_goal < Qcabs stale)%Qc ∧
  (Qcabs fresh ≤ C_goal)%Qc ∧
  proj_steps final = 100 ∧
  proj_p final
  = move_local ts 0 (- stale / (squaredNorm g + regularization)) g (proj_p s99) ∧
  (x_of s99 < x_of final)%Qc.
Proof.
  assert ((let ts := prepareSolve example_slow in
           let m := m_model ts in
           let start := projection_start ts 0 in
           let s98 := projection_loop ts 0 98 start in
           let s99 := projection_loop ts 0 99 start in
           let final := project ts 0 in
           let g := calculateNablaC m 0 (proj_p s99) in
           let stale := proj_C s99 in
           let fresh := calculateC m 0 (proj_p s99) in
           let x_of (s : Projection) := v0 (local_at (proj_p s) 0) in
           bool_decide
             (proj_steps s98 = 98 ∧ proj_steps s99 = 99 ∧
              (x_of s98 < x_of s99)%Qc ∧
              stale = calculateC m 0 (proj_p s98) ∧
              (C_goal < Qcabs stale)%Qc ∧
              (Qcabs fresh ≤ C_goal)%Qc ∧
              proj_steps final = 100 ∧
              proj_p final
              = move_local ts 0 (- stale / (squaredNorm g + regularization)) g
                  (proj_p s99) ∧
              (x_of s99 < x_of final)%Qc)) = true) as Hcheck.
  { vm_compute. reflexivity. }
  cbv zeta in Hcheck. cbv zeta.
  exact (bool_decide_eq_true_1 _ Hcheck).
Qed.




(** * The outcomes of [cgSolve] *)

Lemma with_data_setX_same (ts : TimeStepPF) :
  with_data ts (setX (m_simulationData ts) (getX (m_simulationData ts))) = ts.
Proof. by destruct ts as [m [o p x c] h n]. Qed.

(** One iteration of the loop of [cgSolve] is one step of the method. *)
Lemma cg_advance_iterate (ts : TimeStepPF) (b x : VectorXr) (k : nat)
    (s : CGVars) :
  let d := m_simulationData ts in
  let zeros := replicate (numVariables ts) 0%Qc in
  let q := matrixFreeLHS ts (cg_d s) zeros in
  let alpha := (cg_delta_new s / dot (cg_d s) q)%Qc in
  let x' := vadd x (vscale alpha (cg_d s)) in
  let s' := cg_advance b k s in
  residual_exact b s →
  cg_ts s = with_data ts (setX d x) →
  cg_ts s' = with_data ts (setX d x') ∧
  cg_r s' = true_residual ts b x' ∧
  cg_d s' = cg_d s ∧
  cg_delta_new s' = squaredNorm (true_residual ts b x') ∧
  cg_delta_old s' = cg_delta_new s.
Proof.
  intros d zeros q alpha x' s' Hexact Hts.
  pose proof (residual_exact_diagonal b s Hexact) as Hres.
  destruct (cg_advance_restart b k s Hexact) as [Heq _].
  destruct Hexact as (Hx & Hr & Hd & Hq & Hb & _).
  unfold cg_x in *. rewrite Hts in Hx, Hr, Hd, Hq, Hb, Hres.
  change (numVariables (with_data ts (setX d x))) with (numVariables ts) in *.
  change (getX (m_simulationData (with_data ts (setX d x)))) with x in *.
  rewrite operator_diagonal_with_data in Hres.
  assert (matrixFreeLHS (cg_ts s) (cg_d s) (cg_q s) = q) as Hq'.
  { rewrite Hts. unfold q, zeros.
    rewrite !matrixFreeLHS_diagonal
      by (change (numVariables (with_data ts (setX d x)))
            with (numVariables ts); vec_length).
    by rewrite operator_diagonal_with_data. }
  assert (vsub (cg_r s) (vscale alpha q) = true_residual ts b x') as Hr'.
  { unfold true_residual, q, zeros, x'.
    rewrite !matrixFreeLHS_diagonal by vec_length.
    rewrite Hres. symmetry. apply residual_update; vec_length. }
  unfold s'. rewrite Heq. unfold cg_advance_incremental. cbv zeta.
  cbn [cg_ts cg_r cg_d cg_delta_new cg_delta_old].
  rewrite Hq'. fold alpha. rewrite Hr', Hts.
  by repeat split.
Qed.

(** The variables of [cgSolve] at the head of its iteration [k] are the
    [k]-th iterate of the method. *)
Lemma cg_trace_iterate (ts : TimeStepPF) (k : nat) :
  let d := m_simulationData ts in
  let s := cg_trace (cg_init ts).2 (cg_init ts).1 k in
  let it := cg_iterate ts (cg_init ts).2 (getX d) k in
  length (getX d) = numVariables ts →
  cg_ts s = with_data ts (setX d (it_x it)) ∧
  cg_r s = it_r it ∧ cg_d s = it_d it ∧
  cg_delta_new s = squaredNorm (it_r it).
Proof.
  intros d s it Hx. unfold s, it. clear s it.
  induction k as [|k (Hts & Hr & Hd & Hdelta)].
  - cbn [cg_trace cg_iterate]. cbv zeta. cbn [it_x it_r it_d].
    rewrite cg_init_ts. unfold d. rewrite with_data_setX_same. done.
  - pose proof (cg_trace_exact ts k Hx) as Hexact.
    destruct (cg_advance_iterate ts (cg_init ts).2 _ k _ Hexact Hts)
      as (Hts' & Hr' & Hd' & Hdelta' & Hold').
    cbn [cg_trace cg_iterate]. cbv zeta. cbn [it_x it_r it_d].
    unfold cg_direction. cbv zeta. cbn [cg_ts cg_r cg_d cg_delta_new].
    rewrite Hts', Hr', Hd', Hdelta', Hold'. rewrite Hd, Hdelta. done.
Qed.

Lemma cg_iterate_residual (ts : TimeStepPF) (b x0 : VectorXr) (k : nat) :
  it_r (cg_iterate ts b x0 k) = true_residual ts b (it_x (cg_iterate ts b x0 k)).
Proof. by destruct k. Qed.

(** The variables of [cgSolve] at the convergence test of its iteration
    [k] hold the [x] and the squared residual norm of the iterate
    [k + 1]. *)
Lemma cg_after_iterate (ts : TimeStepPF) (k : nat) :
  let d := m_simulationData ts in
  let b := (cg_init ts).2 in
  let s := cg_after b (cg_init ts).1 k in
  let x := it_x (cg_iterate ts b (getX d) (S k)) in
  length (getX d) = numVariables ts →
  cg_ts s = with_data ts (setX d x) ∧
  cg_delta_new s = squaredNorm (true_residual ts b x).
Proof.
  intros d b s x Hx. subst s x b d. unfold cg_after.
  destruct (cg_trace_iterate ts k Hx) as (Hts & Hr & Hd & Hdelta).
  pose proof (cg_trace_exact ts k Hx) as Hexact.
  destruct (cg_advance_iterate ts (cg_init ts).2 _ k _ Hexact Hts)
    as (Hts' & _ & _ & Hdelta' & _).
  rewrite Hd, Hdelta in Hts', Hdelta'.
  cbn [cg_iterate]. cbv zeta. cbn [it_x]. by split.
Qed.

(** C5.  [cgSolve] runs at most [3 N] iterations.  The quantity it tests
    is the squared norm of the residual [b - A x] of the current [x], and the
    test is [< 1e-10] or [< 1e-8] times the squared norm of the first
    residual.  When the [x] at entry passes the test the result is
    [ALREADY_SOLVED], no iteration is run and nothing changes.  Otherwise the
    iterates of the conjugate-gradient method are computed one per iteration
    and the first one that passes the test, the [k]-th, ends the loop with
    [CONVERGED] after [k] iterations.  When none of the first [3 N] iterates
    passes, the result is [MAX_ITER_REACHED] after [3 N] iterations.  In both
    cases the object returned holds the last iterate as its [x]. *)
Theorem cgSolve_outcomes (ts : TimeStepPF) :
  let d := m_simulationData ts in
  let n := 3 * numParticles (m_model ts) in
  let b := matrixFreeRHS ts (replicate n 0%Qc) in
  let iterate := cg_iterate ts b (getX d) in
  let delta k := squaredNorm (true_residual ts b (it_x (iterate k))) in
  let test k := passes_convergence_test (delta k) (delta 0) in
  let kept k := with_data ts (setX d (it_x (iterate k))) in
  length (getX d) = n →
  (cgSolve_run ts).2 ≤ n ∧
  ((test 0 ∧ (cgSolve_run ts).2 = 0 ∧ cgSolve ts = (ALREADY_SOLVED, ts)) ∨
   (∃ k, 0 < k ≤ n ∧ (∀ j, j < k → ¬ test j) ∧ test k ∧
         (cgSolve_run ts).2 = k ∧ cgSolve ts = (CONVERGED, kept k)) ∨
   ((∀ j, j ≤ n → ¬ test j) ∧
    (cgSolve_run ts).2 = n ∧ cgSolve ts = (MAX_ITER_REACHED, kept n))).
Proof.
  intros d n b iterate delta test kept Hx.
  split; [apply cgSolve_run_iterations|].
  assert ((cg_init ts).2 = b) as Hb by done.
  assert (cg_delta_new (cg_init ts).1 = delta 0) as Hdelta0.
  { destruct (cg_trace_iterate ts 0 Hx) as (_ & _ & _ & Hdelta).
    cbn [cg_trace] in Hdelta. rewrite Hdelta, Hb.
    by rewrite cg_iterate_residual. }
  assert (∀ k, cg_ts (cg_after b (cg_init ts).1 k) = kept (S k) ∧
               (cg_test b (cg_init ts).1 k = true ↔ test (S k))) as Hafter.
  { intros k. destruct (cg_after_iterate ts k Hx) as [Hts Hdelta].
    rewrite Hb in Hts, Hdelta. split; [exact Hts|].
    unfold cg_test. rewrite Hdelta, Hdelta0. apply cg_converged_spec. }
  assert (cg_ts (cg_trace b (cg_init ts).1 n) = kept n) as Htrace.
  { destruct (cg_trace_iterate ts n Hx) as (Hts & _). by rewrite Hb in Hts. }
  assert (cg_converged (delta 0) (delta 0) = true ↔ test 0) as Htest0
    by apply cg_converged_spec.
  pose proof (cg_init_ts ts) as Hts0.
  pose proof (cg_loop_outcome b (cg_init ts).1 (numVariables ts) 0) as Hloop.
  cbn [cg_trace Nat.add] in Hloop. cbv zeta in Hloop.
  change (numVariables ts) with n in Hloop.
  unfold cgSolve, cgSolve_run. change (numVariables ts) with n.
  destruct (cg_init ts) as [s0 b']. cbn [fst snd] in *. subst b'.
  rewrite Hdelta0 in *.
  destruct (cg_converged (delta 0) (delta 0)) eqn:Htest.
  { left. split; [by apply Htest0|]. split; [done|]. by rewrite Hts0. }
  assert (¬ test 0) as Hnot0 by (intros Ht; apply Htest0 in Ht; congruence).
  right.
  destruct Hloop as [(k & Hk & Hbefore & Hk' & Hrun)|[Hnone Hrun]];
    rewrite Hrun; cbn [fst snd].
  - left. exists (S k). destruct (Hafter k) as [Hts Hiff].
    split; [lia|]. split; [|split; [by apply Hiff|split; [done|by rewrite Hts]]].
    intros [|j] Hj; [done|]. intros Ht.
    apply (Hafter j) in Ht. rewrite Hbefore in Ht by lia. done.
  - right. split; [|split; [done|by rewrite Htrace]].
    intros [|j] Hj; [done|]. intros Ht.
    apply (Hafter j) in Ht. rewrite Hnone in Ht by lia. done.
Qed.

(** The solve on the configuration: neither the first residual nor the one
    of the first iterate passes the test, the one of the second iterate does,
    and the object returned holds the second iterate. *)
Lemma cgSolve_outcomes_example :
  let ts := prepareSolve example_step in
  let d := m_simulationData ts in
  let n := 3 * numParticles (m_model ts) in
  let b := matrixFreeRHS ts (replicate n 0%Qc) in
  let iterate := cg_iterate ts b (getX d) in
  let delta k := squaredNorm (true_residual ts b (it_x (iterate k))) in
  length (getX d) = n ∧
  (cgSolve_run ts).2 = 2 ∧
  ¬ passes_convergence_test (delta 0) (delta 0) ∧
  ¬ passes_convergence_test (delta 1) (delta 0) ∧
  passes_convergence_test (delta 2) (delta 0) ∧
  cgSolve ts = (CONVERGED, with_data ts (setX d (it_x (iterate 2)))).
Proof.
  intros ts d n b iterate delta.
  assert (length (getX d) = n) as Hx by (vm_compute; reflexivity).
  split; [exact Hx|]. split; [apply example_iterations|].
  destruct (cgSolve_outcomes ts Hx)
    as [_ [(_ & Hit & _)|[(k & _ & Hbefore & Htest & Hit & Hsolve)|(_ & Hit & _)]]].
  - unfold ts in Hit. rewrite example_iterations in Hit. discriminate Hit.
  - unfold ts in Hit. rewrite example_iterations in Hit. subst k.
    split; [apply (Hbefore 0); lia|]. split; [apply (Hbefore 1); lia|].
    split; [exact Htest|exact Hsolve].
  - unfold ts in Hit. rewrite example_iterations in Hit. discriminate Hit.
Defined.
